(** * Lead capture form: the submission workflow of [LeadCaptureForm.tsx]

    The component keeps two pieces of React state ([formData] and
    [validationErrors]), talks to a session-wide lead store
    ([useLeadStore]) and to two remote gateways (the [leads] table and the
    [send-confirmation] function).  [handleSubmit] is an [async] function
    with two [await] points and two nested [try]/[catch] blocks.

    The embedding is a small free monad [Proc]: a side effect that runs to
    completion is an operation [Sync], an awaited call is an operation
    [Call] whose answer is a settled promise, and [try]/[catch] is a
    function on programs.  The handlers are transcribed once in that monad
    and then interpreted
    - in one go against an environment that fixes the clock and the answers
      of the gateways ([run]), and
    - segment by segment, pausing at every [await], in an event loop where
      other handlers run between the segments ([Loop]).
    [handleSubmit] takes its synchronous statements to succeed; a second
    transcription, [Faults.handleSubmit], lets the statement of any line
    throw and is [handleSubmit] when none does. *)

From Stdlib Require Import Ascii String.
From stdpp Require Import gmap strings list fin_maps.

Local Open Scope string_scope.
Local Open Scope list_scope.
Local Open Scope stdpp_scope.

(** ** Data model *)

(** [ValidationError] of [@/lib/validation]: a field name and a message. *)
Record ValidationError := {
  field : string;
  message : string
}.

(** [Lead] of [@/lib/lead-store] (the interface is quoted in the README). *)
Record Lead := {
  name : string;
  email : string;
  industry : string;
  submitted_at : string
}.

(** The form state is a JS object indexed by field name.  [handleInputChange]
    writes it through a computed key, so it is a finite map; [prop fd k]
    is the property read [fd.k] at the type the component declares
    ([string]).  The three keys are present in every state the component
    reaches ([has_fields], [reachable_has_fields]), so the default is never
    observed. *)
Definition prop (fd : gmap string string) (k : string) : string :=
  default "" (fd !! k).

(** The object literal of [useState] and of the final [setFormData]. *)
Definition emptyForm : gmap string string :=
  {[ "name" := ""; "email" := ""; "industry" := "" ]}.

(** The form has its three properties. *)
Definition has_fields (fd : gmap string string) : Prop :=
  is_Some (fd !! "name") /\ is_Some (fd !! "email") /\ is_Some (fd !! "industry").

(** An object literal sent over the wire: its keys in the order written. *)
Abbreviation Row := (list (string * string)) (only parsing).

(** What a promise settles to: a value, or the exception [await] rethrows. *)
Abbreviation Exn := string (only parsing).

Inductive Settled (A : Type) : Type :=
| Fulfilled (a : A)
| Rejected (e : Exn).
Arguments Fulfilled {A} a.
Arguments Rejected {A} e.

(** The [{ data, error }] answer of [insert(...).select()]. *)
Record PostgrestError := { pg_message : string }.

Record DbResponse := {
  data : option (list Row);
  error : option PostgrestError
}.

(** The [{ error }] part of the answer of [functions.invoke]. *)
Record FnResponse := { fn_error : option string }.

(** ** The session lead store *)

Record LeadStore := {
  sessionLeads : list Lead;
  submitted : bool
}.

(** Modelled from the spec: [src/lib/lead-store.ts] is not among the sources;
    section 4.3 says [addLead] appends to an ordered sequence of leads,
    insertion order preserved and duplicates allowed. *)
Definition addLead (l : Lead) (s : LeadStore) : LeadStore :=
  {| sessionLeads := sessionLeads s ++ [l]; submitted := submitted s |}.

(** Modelled from the spec: [src/lib/lead-store.ts] is not among the sources;
    section 4.3 says [setSubmitted] sets a single shared boolean. *)
Definition setSubmitted (b : bool) (s : LeadStore) : LeadStore :=
  {| sessionLeads := sessionLeads s; submitted := b |}.

(** Modelled from the spec: the store of a fresh browser session (no lead,
    flag down); the initial state of [src/lib/lead-store.ts] is not among the
    sources. *)
Definition initialStore : LeadStore :=
  {| sessionLeads := []; submitted := false |}.

(** ** Effects of the component *)

(** The second argument of a [console] call. *)
Inductive LogArg :=
| ArgNone
| ArgData (d : option (list Row))
| ArgDbError (e : PostgrestError)
| ArgFnError (e : string)
| ArgExn (e : Exn).

(** The operations that run to completion inside a handler.  A state setter
    of React is called with a value ([Set...]) or with a function of the
    previous state ([Update...]). *)
Inductive Sync : Type -> Type :=
| PreventDefault : Sync unit
| SetValidationErrors (errs : list ValidationError) : Sync unit
| SetFormData (fd : gmap string string) : Sync unit
| UpdateFormData (f : gmap string string -> gmap string string) : Sync unit
| UpdateValidationErrors (f : list ValidationError -> list ValidationError) : Sync unit
| NewDateISO : Sync string
| ConsoleError (msg : string) (arg : LogArg) : Sync unit
| ConsoleLog (msg : string) (arg : LogArg) : Sync unit
| Alert (msg : string) : Sync unit
| AddLead (l : Lead) : Sync unit
| SetSubmitted (b : bool) : Sync unit.

(** The two calls the handler awaits:
    [supabase.from(table).insert(rows).select()] and
    [supabase.functions.invoke(fname, { body })]. *)
Inductive Call : Type -> Type :=
| Insert (table : string) (rows : list Row) : Call DbResponse
| Invoke (fname : string) (body : Row) : Call FnResponse.

Inductive Proc (A : Type) : Type :=
| Ret (a : A)
| Throw (e : Exn)
| Do {X : Type} (op : Sync X) (k : X -> Proc A)
| Await {X : Type} (c : Call X) (k : Settled X -> Proc A).
Arguments Ret {A} a.
Arguments Throw {A} e.
Arguments Do {A X} op k.
Arguments Await {A X} c k.

Fixpoint bind {A B : Type} (p : Proc A) (f : A -> Proc B) : Proc B :=
  match p with
  | Ret a => f a
  | Throw e => Throw e
  | Do op k => Do op (fun x => bind (k x) f)
  | Await c k => Await c (fun r => bind (k r) f)
  end.

(** [try { p } catch (e) { h e }]. *)
Fixpoint try_catch {A : Type} (p : Proc A) (h : Exn -> Proc A) : Proc A :=
  match p with
  | Ret a => Ret a
  | Throw e => h e
  | Do op k => Do op (fun x => try_catch (k x) h)
  | Await c k => Await c (fun r => try_catch (k r) h)
  end.

(** On no path, whatever the answers of the calls, does the program end in
    an exception. *)
Fixpoint contained {A : Type} (p : Proc A) : Prop :=
  match p with
  | Ret _ => True
  | Throw _ => False
  | Do op k => forall x, contained (k x)
  | Await c k => forall r, contained (k r)
  end.

Definition perform {X : Type} (op : Sync X) : Proc X := Do op Ret.

(** [await call]: the handler is suspended until the promise settles; a
    rejection is rethrown at the [await]. *)
Definition await {X : Type} (c : Call X) : Proc X :=
  Await c (fun r => match r with Fulfilled x => Ret x | Rejected e => Throw e end).

Notation "x <- p ;; q" := (bind p (fun x => q))
  (at level 100, p at next level, right associativity).
Notation "p ;;; q" := (bind p (fun _ => q))
  (at level 100, right associativity).

(** ** The world the handler runs in *)

(** What leaves the component: calls to the gateways, the console, the
    blocking dialog; and what comes back: the settlement of a call, which
    names the call it answers. *)
Inductive Event :=
| EvPreventDefault
| EvInsert (table : string) (rows : list Row)
| EvInsertSettled (table : string) (rows : list Row) (r : Settled DbResponse)
| EvInvoke (fname : string) (body : Row)
| EvInvokeSettled (fname : string) (body : Row) (r : Settled FnResponse)
| EvConsoleError (msg : string) (arg : LogArg)
| EvConsoleLog (msg : string) (arg : LogArg)
| EvAlert (msg : string).

(** The two [useState] cells, the shared store, and the number of times the
    clock has been read. *)
Record World := {
  formData : gmap string string;
  validationErrors : list ValidationError;
  store : LeadStore;
  ticks : nat
}.

Definition with_formData (fd : gmap string string) (w : World) : World :=
  {| formData := fd; validationErrors := validationErrors w;
     store := store w; ticks := ticks w |}.

Definition with_validationErrors (errs : list ValidationError) (w : World) : World :=
  {| formData := formData w; validationErrors := errs;
     store := store w; ticks := ticks w |}.

Definition with_store (s : LeadStore) (w : World) : World :=
  {| formData := formData w; validationErrors := validationErrors w;
     store := s; ticks := ticks w |}.

Definition tick (w : World) : World :=
  {| formData := formData w; validationErrors := validationErrors w;
     store := store w; ticks := S (ticks w) |}.

(** The clock: [clock n] is what the [n]-th evaluation of
    [new Date().toISOString()] returns. *)
Abbreviation Clock := (nat -> string) (only parsing).

(** Everything outside the component that one run of the handler meets:
    the clock and what each gateway answers to a request. *)
Record Env := {
  clock : Clock;
  db : string -> list Row -> Settled DbResponse;
  fn : string -> Row -> Settled FnResponse
}.

(** One synchronous operation: its value, the world after it, what it
    emits.  [live] tells whether the component instance that created the
    handler is still mounted: React drops the state updates of an unmounted
    instance, while the store, the console and the dialog do not depend on
    it. *)
Definition exec (c : Clock) (live : bool) {X : Type} (op : Sync X) (w : World)
  : X * World * list Event :=
  match op in Sync T return T * World * list Event with
  | PreventDefault => (tt, w, [EvPreventDefault])
  | SetValidationErrors errs =>
      (tt, if live then with_validationErrors errs w else w, [])
  | SetFormData fd =>
      (tt, if live then with_formData fd w else w, [])
  | UpdateFormData f =>
      (tt, if live then with_formData (f (formData w)) w else w, [])
  | UpdateValidationErrors f =>
      (tt, if live then with_validationErrors (f (validationErrors w)) w else w, [])
  | NewDateISO => (c (ticks w), tick w, [])
  | ConsoleError msg arg => (tt, w, [EvConsoleError msg arg])
  | ConsoleLog msg arg => (tt, w, [EvConsoleLog msg arg])
  | Alert msg => (tt, w, [EvAlert msg])
  | AddLead l => (tt, with_store (addLead l (store w)) w, [])
  | SetSubmitted b => (tt, with_store (setSubmitted b (store w)) w, [])
  end.

(** The events of issuing a call and of its promise settling. *)
Definition issued {X : Type} (c : Call X) : Event :=
  match c with
  | Insert table rows => EvInsert table rows
  | Invoke fname body => EvInvoke fname body
  end.

Definition settled {X : Type} (c : Call X) : Settled X -> Event :=
  match c in Call T return Settled T -> Event with
  | Insert table rows => EvInsertSettled table rows
  | Invoke fname body => EvInvokeSettled fname body
  end.

(** What the environment answers to a call. *)
Definition answer (env : Env) {X : Type} (c : Call X) : Settled X :=
  match c in Call T return Settled T with
  | Insert table rows => db env table rows
  | Invoke fname body => fn env fname body
  end.

(** ** One run of a handler, from the click to its last statement

    The component stays mounted and nothing else happens while the handler
    is suspended; the event loop without these two assumptions is [Loop]
    below. *)

Record Outcome (A : Type) := {
  result : A + Exn;
  final : World;
  events : list Event
}.
Arguments result {A} o.
Arguments final {A} o.
Arguments events {A} o.

Definition emit {A : Type} (evs : list Event) (o : Outcome A) : Outcome A :=
  {| result := result o; final := final o; events := evs ++ events o |}.

Fixpoint run {A : Type} (env : Env) (p : Proc A) (w : World) : Outcome A :=
  match p with
  | Ret a => {| result := inl a; final := w; events := [] |}
  | Throw e => {| result := inr e; final := w; events := [] |}
  | Do op k =>
      let '(x, w', evs) := exec (clock env) true op w in
      emit evs (run env (k x) w')
  | Await c k =>
      let r := answer env c in
      emit [issued c; settled c r] (run env (k r) w)
  end.

(** ** The component *)

Section LeadCaptureForm.

(** [validateLeadForm] of [@/lib/validation] is imported by the component and
    is not among the sources: the component is verified for every validator.
    ([Validation.validateLeadForm] below is one, read off the spec.) *)
Variable validateLeadForm : gmap string string -> list ValidationError.

(** [useEffect(() => { setSubmitted(false); }, [])]. *)
Definition resetOnMount : Proc unit :=
  perform (SetSubmitted false).

(** [validationErrors.find(error => error.field === field)?.message]. *)
Definition getFieldError (validationErrors : list ValidationError) (fld : string)
  : option string :=
  message <$> find (fun error => bool_decide (field error = fld)) validationErrors.

(** [handleSubmit], with the [formData] of the render that created the
    handler.  The [return] of the [dbError] branch leaves the function, so
    what follows the [if] in the source is the other branch here. *)
Definition handleSubmit (formData : gmap string string) : Proc unit :=
  perform PreventDefault ;;;
  let errors := validateLeadForm formData in
  perform (SetValidationErrors errors) ;;;
  if Nat.eqb (length errors) 0 then
    try_catch
      (now <- perform NewDateISO ;;
       res <- await (Insert "leads"
                [[("name", prop formData "name");
                  ("email", prop formData "email");
                  ("industry", prop formData "industry");
                  ("submitted_at", now)]]) ;;
       match error res with
       | Some dbError =>
           perform (ConsoleError "CRITICAL: Database insert failed:" (ArgDbError dbError)) ;;;
           perform (Alert ("Database Error: " +:+ pg_message dbError)) ;;;
           Ret tt
       | None =>
           perform (ConsoleLog "Lead saved to database successfully:" (ArgData (data res))) ;;;
           try_catch
             (res' <- await (Invoke "send-confirmation"
                        [("name", prop formData "name");
                         ("email", prop formData "email");
                         ("industry", prop formData "industry")]) ;;
              match fn_error res' with
              | Some emailError =>
                  perform (ConsoleError "Error sending confirmation email:" (ArgFnError emailError))
              | None =>
                  perform (ConsoleLog "Confirmation email sent successfully" ArgNone)
              end)
             (fun emailError =>
                perform (ConsoleError "Error calling email function:" (ArgExn emailError))) ;;;
           now' <- perform NewDateISO ;;
           let lead := {| name := prop formData "name";
                          email := prop formData "email";
                          industry := prop formData "industry";
                          submitted_at := now' |} in
           perform (AddLead lead) ;;;
           perform (SetSubmitted true) ;;;
           perform (SetFormData emptyForm)
       end)
      (fun error =>
         perform (ConsoleError "Unexpected error during form submission:" (ArgExn error)))
  else Ret tt.

(** [handleInputChange], with the [validationErrors] of the render that
    created the handler. *)
Definition handleInputChange (validationErrors : list ValidationError)
    (fld value : string) : Proc unit :=
  perform (UpdateFormData (fun prev => <[fld := value]> prev)) ;;;
  if existsb (fun error => bool_decide (field error = fld)) validationErrors then
    perform (UpdateValidationErrors
               (fun prev => filter (fun error => field error <> fld) prev))
  else Ret tt.

(** A submit click and a keystroke, in the world they happen in: the handler
    closes over the state of the current render. *)
Definition submit (env : Env) (w : World) : Outcome unit :=
  run env (handleSubmit (formData w)) w.

Definition change (env : Env) (fld value : string) (w : World) : Outcome unit :=
  run env (handleInputChange (validationErrors w) fld value) w.

(** Mounting the component: fresh [useState] cells, then the effect. *)
Definition mount (env : Env) (w : World) : Outcome unit :=
  run env resetOnMount (with_validationErrors [] (with_formData emptyForm w)).

End LeadCaptureForm.

(** ** A validator, for concrete runs *)

Module Validation.

(** [\s] restricted to the ASCII range: space, tab, line feed, vertical tab,
    form feed, carriage return. *)
Definition is_space (a : ascii) : bool :=
  let n := nat_of_ascii a in
  bool_decide (n = 32) || (bool_decide (9 <= n) && bool_decide (n <= 13)).

Fixpoint all_chars (f : ascii -> bool) (s : string) : bool :=
  match s with
  | EmptyString => true
  | String a s' => f a && all_chars f s'
  end.

(** [!s.trim()]: nothing but white space. *)
Definition blank (s : string) : bool := all_chars is_space s.

Definition is_at (a : ascii) : bool := bool_decide (a = "@"%char).
Definition is_dot (a : ascii) : bool := bool_decide (a = "."%char).

(** A run of one or more characters that are neither white space nor "@". *)
Definition word (s : string) : bool :=
  negb (bool_decide (s = "")) && all_chars (fun a => negb (is_space a || is_at a)) s.

(** [s] is [a ++ "." ++ b] for two words [a] and [b]. *)
Fixpoint dotted (pre s : string) : bool :=
  match s with
  | EmptyString => false
  | String a s' =>
      (is_dot a && word pre && word s') || dotted (pre +:+ String a "") s'
  end.

(** [s] is [l ++ "@" ++ d] for a word [l] and a dotted [d]. *)
Fixpoint email_shape_from (pre s : string) : bool :=
  match s with
  | EmptyString => false
  | String a s' =>
      (is_at a && word pre && dotted "" s') || email_shape_from (pre +:+ String a "") s'
  end.

Definition email_shape (s : string) : bool := email_shape_from "" s.

(** Modelled from the spec: [src/lib/validation.ts] is not among the sources.
    Section 4.1: a name error when the name is empty or white space only; an
    email error when the email is empty and another one when it does not
    have the shape local@domain.tld; an industry error when no industry is
    chosen; errors in the order name, email, industry.  The industry test
    and message are the ones the README quotes; the wording of the two
    email messages is not given by the spec. *)
Definition validateLeadForm (data : gmap string string) : list ValidationError :=
  (if blank (prop data "name")
   then [{| field := "name"; message := "Name is required" |}] else []) ++
  (if bool_decide (prop data "email" = "")
   then [{| field := "email"; message := "Email is required" |}]
   else if email_shape (prop data "email") then []
   else [{| field := "email"; message := "Please enter a valid email address" |}]) ++
  (if blank (prop data "industry")
   then [{| field := "industry"; message := "Please select your industry" |}] else []).

End Validation.

(** ** Naming the parts of a run *)

(** The object literals of the handler, named for the statements below. *)
Definition insertRow (fd : gmap string string) (now : string) : Row :=
  [("name", prop fd "name"); ("email", prop fd "email");
   ("industry", prop fd "industry"); ("submitted_at", now)].

Definition invokeBody (fd : gmap string string) : Row :=
  [("name", prop fd "name"); ("email", prop fd "email");
   ("industry", prop fd "industry")].

Definition leadOf (fd : gmap string string) (now : string) : Lead :=
  {| name := prop fd "name"; email := prop fd "email";
     industry := prop fd "industry"; submitted_at := now |}.

(** The answer of the persistence gateway to the insert of this run, and of
    the notification gateway to its invoke. *)
Definition insertAnswer (env : Env) (w : World) : Settled DbResponse :=
  db env "leads" [insertRow (formData w) (clock env (ticks w))].

Definition invokeAnswer (env : Env) (w : World) : Settled FnResponse :=
  fn env "send-confirmation" (invokeBody (formData w)).

(** The line the handler writes to the console once the notification call
    has settled, one per branch of the inner [try]/[catch]. *)
Definition notifyLog (r : Settled FnResponse) : Event :=
  match r with
  | Fulfilled r' =>
      match fn_error r' with
      | Some emailError =>
          EvConsoleError "Error sending confirmation email:" (ArgFnError emailError)
      | None => EvConsoleLog "Confirmation email sent successfully" ArgNone
      end
  | Rejected e => EvConsoleError "Error calling email function:" (ArgExn e)
  end.

(** The world after the commit steps. *)
Definition committed (env : Env) (w : World) : World :=
  {| formData := emptyForm;
     validationErrors := [];
     store := setSubmitted true
                (addLead (leadOf (formData w) (clock env (S (ticks w)))) (store w));
     ticks := S (S (ticks w)) |}.


(** ** The event loop

    [handleSubmit] gives the control back at each [await].  Until the
    promise settles, the user may type, click again, or leave and come back
    (which mounts a new instance of the component); the store is shared by
    all of them.  A state of the loop holds the world, the number of the
    mounted instance, the handlers suspended at an [await], and the trace so
    far. *)

Module Loop.

(** Where a handler stops: at its end, or at an [await]. *)
Inductive Paused (A : Type) : Type :=
| Finished (r : A + string)
| Awaiting {X : Type} (c : Call X) (k : Settled X -> Proc A).
Arguments Finished {A} r.
Arguments Awaiting {A X} c k.

(** Run a handler up to its next [await]; the call is issued, not answered. *)
Fixpoint advance {A : Type} (clk : Clock) (live : bool) (p : Proc A) (w : World)
  : Paused A * World * list Event :=
  match p with
  | Ret a => (Finished (inl a), w, [])
  | Throw e => (Finished (inr e), w, [])
  | Do op k =>
      let '(x, w', evs) := exec clk live op w in
      let '(st, w'', evs') := advance clk live (k x) w' in
      (st, w'', evs ++ evs')
  | Await c k => (Awaiting c k, w, [issued c])
  end.

(** A suspended handler: the instance that started it, the call it waits
    for, and what it does with the answer. *)
Inductive Suspended : Type :=
| WaitInsert (owner : nat) (table : string) (rows : list Row)
    (k : Settled DbResponse -> Proc unit)
| WaitInvoke (owner : nat) (fname : string) (body : Row)
    (k : Settled FnResponse -> Proc unit).

Definition suspend (owner : nat) {X : Type} (c : Call X)
  : (Settled X -> Proc unit) -> Suspended :=
  match c in Call T return (Settled T -> Proc unit) -> Suspended with
  | Insert table rows => WaitInsert owner table rows
  | Invoke fname body => WaitInvoke owner fname body
  end.

(** A handler that ended has nothing left to do; a promise rejected by an
    exception nobody caught is dropped. *)
Definition park (owner : nat) (st : Paused unit) : list Suspended :=
  match st with
  | Finished _ => []
  | Awaiting c k => [suspend owner c k]
  end.

Record State := {
  world : World;
  instance : nat;
  pending : list Suspended;
  history : list Event
}.

(** Start or resume handler [p] of instance [owner]. *)
Definition schedule (clk : Clock) (owner : nat) (p : Proc unit)
    (before : list Event) (rest : list Suspended) (s : State) : State :=
  let '(st, w', evs) :=
    advance clk (bool_decide (owner = instance s)) p (world s) in
  {| world := w';
     instance := instance s;
     pending := rest ++ park owner st;
     history := history s ++ before ++ evs |}.

(** What can happen next. *)
Inductive Action :=
| Mount
| Change (fld value : string)
| Submit
| SettleInsert (i : nat) (r : Settled DbResponse)
| SettleInvoke (i : nat) (r : Settled FnResponse).

Section Step.

Variable validateLeadForm : gmap string string -> list ValidationError.
Variable clk : Clock.

(** A new instance has fresh [useState] cells and runs its effect. *)
Definition remount (s : State) : State :=
  {| world := with_validationErrors [] (with_formData emptyForm (world s));
     instance := S (instance s);
     pending := pending s;
     history := history s |}.

Definition step (a : Action) (s : State) : option State :=
  match a with
  | Mount =>
      let s' := remount s in
      Some (schedule clk (instance s') resetOnMount [] (pending s') s')
  | Change fld value =>
      Some (schedule clk (instance s)
              (handleInputChange (validationErrors (world s)) fld value)
              [] (pending s) s)
  | Submit =>
      Some (schedule clk (instance s)
              (handleSubmit validateLeadForm (formData (world s)))
              [] (pending s) s)
  | SettleInsert i r =>
      match pending s !! i with
      | Some (WaitInsert owner table rows k) =>
          Some (schedule clk owner (k r) [EvInsertSettled table rows r]
                  (delete i (pending s)) s)
      | _ => None
      end
  | SettleInvoke i r =>
      match pending s !! i with
      | Some (WaitInvoke owner fname body k) =>
          Some (schedule clk owner (k r) [EvInvokeSettled fname body r]
                  (delete i (pending s)) s)
      | _ => None
      end
  end.

Fixpoint steps (acts : list Action) (s : State) : option State :=
  match acts with
  | [] => Some s
  | a :: acts' =>
      match step a s with
      | Some s' => steps acts' s'
      | None => None
      end
  end.

End Step.

(** The page is loaded: nothing mounted yet, an empty store. *)
Definition init : State :=
  {| world := {| formData := emptyForm; validationErrors := [];
                 store := initialStore; ticks := 0 |};
     instance := 0;
     pending := [];
     history := [] |}.

(** The store is known to hold a lead. *)
Definition has_lead (w : World) : bool :=
  match sessionLeads (store w) with
  | [] => false
  | _ :: _ => true
  end.

(** The flag is up only over a store that holds a lead. *)
Definition flag_ok (w : World) : Prop :=
  submitted (store w) = true -> has_lead w = true.

(** What an operation does to the store. *)
Definition raises {X : Type} (op : Sync X) : bool :=
  match op with
  | SetSubmitted true => true
  | _ => false
  end.

Definition added {X : Type} (op : Sync X) : option Lead :=
  match op with
  | AddLead l => Some l
  | _ => None
  end.

(** A write to the form leaves it its three properties. *)
Definition keeps_form {X : Type} (op : Sync X) : Prop :=
  match op with
  | SetFormData fd => has_fields fd
  | UpdateFormData f => forall fd, has_fields fd -> has_fields (f fd)
  | _ => True
  end.

Definition appends {X : Type} (op : Sync X) : bool :=
  match added op with
  | Some _ => true
  | None => false
  end.

Section Invariant.

Variable validateLeadForm : gmap string string -> list ValidationError.

(** Lead [l] carries the name, email and industry of a form that passed
    validation and whose insert the persistence gateway accepted, as the
    trace [seen] records. *)
Definition persisted (seen : list Event) (l : Lead) : Prop :=
  exists fd t r,
    validateLeadForm fd = [] /\
    error r = None /\
    EvInsertSettled "leads" [insertRow fd t] (Fulfilled r) ∈ seen /\
    name l = prop fd "name" /\
    email l = prop fd "email" /\
    industry l = prop fd "industry".

(** An invoke comes after an accepted insert of the same name, email and
    industry, as the trace [seen] records; an insert needs nothing. *)
Definition after_insert (seen : list Event) {X : Type} (c : Call X) : Prop :=
  match c with
  | Insert _ _ => True
  | Invoke _ body =>
      exists fd t r,
        error r = None /\
        EvInsertSettled "leads" [insertRow fd t] (Fulfilled r) ∈ seen /\
        body = invokeBody fd
  end.

(** In trace [h], every invoke has such an insert settled before it. *)
Definition notified_after (h : list Event) : Prop :=
  forall i fname body,
    h !! i = Some (EvInvoke fname body) ->
    exists j fd t r,
      j < i /\
      h !! j = Some (EvInsertSettled "leads" [insertRow fd t] (Fulfilled r)) /\
      error r = None /\
      body = invokeBody fd.

(** [safe seen b p]: on every path of [p], whatever the answers,
    - the flag is raised only after a lead has been appended or, with [b],
      over a store that already held one,
    - a lead is appended only if it is [persisted] in the trace of what the
      handler has seen: [seen], then the settlements of its own calls,
    - the form keeps its three properties, and
    - an invoke is issued only [after_insert]. *)
Fixpoint safe {A : Type} (seen : list Event) (b : bool) (p : Proc A) : Prop :=
  match p with
  | Ret _ => True
  | Throw _ => True
  | Do op k =>
      (raises op = true -> b = true) /\
      (forall l, added op = Some l -> persisted seen l) /\
      keeps_form op /\
      forall x, safe seen (b || appends op) (k x)
  | Await c k =>
      after_insert seen c /\ forall r, safe (seen ++ [settled c r]) b (k r)
  end.

Definition safe_suspended (seen : list Event) (b : bool) (h : Suspended) : Prop :=
  match h with
  | WaitInsert _ table rows k =>
      forall r, safe (seen ++ [EvInsertSettled table rows r]) b (k r)
  | WaitInvoke _ fname body k =>
      forall r, safe (seen ++ [EvInvokeSettled fname body r]) b (k r)
  end.

Definition invariant (s : State) : Prop :=
  notified_after (history s) /\
  flag_ok (world s) /\
  has_fields (formData (world s)) /\
  (forall l, l ∈ sessionLeads (store (world s)) -> persisted (history s) l) /\
  (forall h, h ∈ pending s -> safe_suspended (history s) (has_lead (world s)) h).

End Invariant.

End Loop.

(** ** Reading a trace *)

(** The requests sent to the persistence gateway, in order. *)
Definition insertCalls (evs : list Event) : list (string * list Row) :=
  omap (fun ev => match ev with EvInsert t rows => Some (t, rows) | _ => None end) evs.

(** The requests sent to the notification gateway, in order. *)
Definition invokeCalls (evs : list Event) : list (string * Row) :=
  omap (fun ev => match ev with EvInvoke f body => Some (f, body) | _ => None end) evs.

(** A network call to either gateway. *)
Definition is_call (ev : Event) : bool :=
  match ev with
  | EvInsert _ _ | EvInvoke _ _ => true
  | _ => false
  end.

Definition is_alert (ev : Event) : bool :=
  match ev with
  | EvAlert _ => true
  | _ => false
  end.

(** A lead written as the row the insert would carry for it. *)
Definition rowOfLead (l : Lead) : Row :=
  [("name", name l); ("email", email l);
   ("industry", industry l); ("submitted_at", submitted_at l)].

(** The lead a run appends to the store is, field for field, the row that
    run sent to the persistence gateway and that the gateway accepted. *)
Definition stored_as_persisted
    (validateLeadForm : gmap string string -> list ValidationError)
    (env : Env) (w : World) : Prop :=
  let o := submit validateLeadForm env w in
  forall l,
    sessionLeads (store (final o)) = sessionLeads (store w) ++ [l] ->
    exists r, error r = None /\
              EvInsertSettled "leads" [rowOfLead l] (Fulfilled r) ∈ events o.

(** ** Concrete worlds and environments *)

Module Sample.

Definition ann : gmap string string :=
  {[ "name" := "Ann"; "email" := "a@b.com"; "industry" := "technology" ]}.

Definition noEmail : gmap string string :=
  {[ "name" := "Ann"; "email" := "ann"; "industry" := "technology" ]}.

(** A clock that advances between two readings. *)
Definition time (n : nat) : string :=
  match n with
  | 0 => "2025-07-10T13:51:08.000Z"
  | _ => "2025-07-10T13:51:09.250Z"
  end.

Definition accepted : Settled DbResponse :=
  Fulfilled {| data := Some [insertRow ann (time 0)]; error := None |}.

Definition refused : Settled DbResponse :=
  Fulfilled {| data := None;
               error := Some {| pg_message := "column industry does not exist" |} |}.

Definition sent : Settled FnResponse := Fulfilled {| fn_error := None |}.

Definition bounced : Settled FnResponse :=
  Fulfilled {| fn_error := Some "Edge Function returned a non-2xx status code" |}.

Definition env (d : Settled DbResponse) (f : Settled FnResponse) : Env :=
  {| clock := time; db := fun _ _ => d; fn := fun _ _ => f |}.

(** A fresh session with a filled or a half-filled form. *)
Definition world (fd : gmap string string) : World :=
  {| formData := fd; validationErrors := []; store := initialStore; ticks := 0 |}.

(** The form after a failed validation pass, before the user corrects it. *)
Definition flagged : World :=
  {| formData := noEmail;
     validationErrors := Validation.validateLeadForm noEmail;
     store := initialStore; ticks := 0 |}.

(** A visitor fills the form and submits; while the insert is in flight
    they leave the page and come back; then both calls succeed. *)
Definition session : list Loop.Action :=
  [Loop.Mount;
   Loop.Change "name" "Ann";
   Loop.Change "email" "a@b.com";
   Loop.Change "industry" "technology";
   Loop.Submit;
   Loop.Mount;
   Loop.SettleInsert 0 accepted;
   Loop.SettleInvoke 0 sent].

End Sample.

(** ** What the form shows

    The three blocks of the JSX read the state in the same way: the input
    shows the property of [formData], the border turns red when
    [getFieldError] is truthy, and the paragraph under the input is rendered
    by [getFieldError(f) && <p>...</p>]. *)

(** Truthiness of [string | undefined]: [undefined] and the empty string are
    falsy. *)
Definition truthy (o : option string) : bool :=
  match o with
  | Some (String _ _) => true
  | _ => false
  end.

Record FieldView := {
  shown_value : string;
  highlighted : bool;
  error_text : option string
}.

(** The block of field [fld]: [value={formData.fld}], the [border-destructive]
    class, and the text of the error paragraph when there is one. *)
Definition fieldView (w : World) (fld : string) : FieldView :=
  {| shown_value := prop (formData w) fld;
     highlighted := truthy (getFieldError (validationErrors w) fld);
     error_text :=
       if truthy (getFieldError (validationErrors w) fld)
       then getFieldError (validationErrors w) fld
       else None |}.

(** The lines written with [console.error]. *)
Definition consoleErrors (evs : list Event) : list string :=
  omap (fun ev => match ev with EvConsoleError msg _ => Some msg | _ => None end) evs.

(** The notification call ended well: fulfilled, without [error]. *)
Definition notified (r : Settled FnResponse) : bool :=
  match r with
  | Fulfilled r' =>
      match fn_error r' with
      | None => true
      | Some _ => false
      end
  | Rejected _ => false
  end.

(** ** The segments of [handleSubmit] in the event loop *)

(** The world after the commit steps of a handler that closed over form
    [fd]: the lead is stamped with the clock as it is then, and the form of
    the instance is reset if that instance is still mounted. *)
Definition commitOn (clk : nat -> string) (live : bool) (fd : gmap string string)
    (w : World) : World :=
  {| formData := if live then emptyForm else formData w;
     validationErrors := validationErrors w;
     store := setSubmitted true (addLead (leadOf fd (clk (ticks w))) (store w));
     ticks := S (ticks w) |}.

(** What the continuation [K] of the awaited insert does with each answer,
    for a handler that closed over form [fd]. *)
Definition insert_continuation (clk : nat -> string) (fd : gmap string string)
    (K : Settled DbResponse -> Proc unit) : Prop :=
  (forall live w e,
     Loop.advance clk live (K (Rejected e)) w =
       (Loop.Finished (inl tt), w,
        [EvConsoleError "Unexpected error during form submission:" (ArgExn e)])) /\
  (forall live w r dbError,
     error r = Some dbError ->
     Loop.advance clk live (K (Fulfilled r)) w =
       (Loop.Finished (inl tt), w,
        [EvConsoleError "CRITICAL: Database insert failed:" (ArgDbError dbError);
         EvAlert ("Database Error: " +:+ pg_message dbError)])) /\
  (forall r,
     error r = None ->
     exists K' : Settled FnResponse -> Proc unit,
       (forall live w,
          Loop.advance clk live (K (Fulfilled r)) w =
            (Loop.Awaiting (Invoke "send-confirmation" (invokeBody fd)) K', w,
             [EvConsoleLog "Lead saved to database successfully:" (ArgData (data r));
              EvInvoke "send-confirmation" (invokeBody fd)])) /\
       (forall live w r',
          Loop.advance clk live (K' r') w =
            (Loop.Finished (inl tt), commitOn clk live fd w, [notifyLog r']))).

(** ** Counting in the event loop *)

Module Ledger.

Definition is_insert {X : Type} (c : Call X) : bool :=
  match c with
  | Insert _ _ => true
  | Invoke _ _ => false
  end.

Definition is_invoke {X : Type} (c : Call X) : bool :=
  match c with
  | Insert _ _ => false
  | Invoke _ _ => true
  end.

(** The answer the handler takes for a success: [error] is falsy. *)
Definition accepted (r : Settled DbResponse) : bool :=
  match r with
  | Fulfilled res =>
      match error res with
      | None => true
      | Some _ => false
      end
  | Rejected _ => false
  end.

(** 1 for the settlement of an insert the gateway accepted, 0 otherwise. *)
Definition credit {X : Type} (c : Call X) : Settled X -> nat :=
  match c in Call T return Settled T -> nat with
  | Insert _ _ => fun r => if accepted r then 1 else 0
  | Invoke _ _ => fun _ => 0
  end.

(** The accepted inserts of a trace. *)
Definition acceptedInserts (evs : list Event) : list (string * list Row) :=
  omap (fun ev => match ev with
                  | EvInsertSettled t rows r =>
                      if accepted r then Some (t, rows) else None
                  | _ => None
                  end) evs.

(** The submit clicks among the actions. *)
Definition is_submit (a : Loop.Action) : bool :=
  match a with
  | Loop.Submit => true
  | _ => false
  end.

Definition clicks (acts : list Loop.Action) : nat :=
  length (List.filter is_submit acts).

(** [ledger b dl di p]: on every path of [p], whatever the answers,
    - at most [b] inserts are issued,
    - the leads appended are [dl] plus one per accepted insert of its own,
    - the invokes issued are [di] plus one per accepted insert of its own,
      and the invoke that an accepted insert calls for is issued before the
      handler waits again. *)
Fixpoint ledger {A : Type} (b dl di : nat) (p : Proc A) : Prop :=
  match p with
  | Ret _ => dl = 0 /\ di = 0
  | Throw _ => dl = 0 /\ di = 0
  | Do op k =>
      match Loop.added op with
      | Some _ => exists dl', dl = S dl' /\ forall x, ledger b dl' di (k x)
      | None => forall x, ledger b dl di (k x)
      end
  | Await c k =>
      di = (if is_invoke c then 1 else 0) /\
      exists b', b = (if is_insert c then S b' else b') /\
      forall r, ledger b' (dl + credit c r) (credit c r) (k r)
  end.

(** A suspended handler that may still issue [b] inserts and owes [dl]
    leads. *)
Definition owes (d : nat * nat) (h : Loop.Suspended) : Prop :=
  match h with
  | Loop.WaitInsert _ table rows k =>
      forall r, ledger d.1 (d.2 + credit (Insert table rows) r)
                  (credit (Insert table rows) r) (k r)
  | Loop.WaitInvoke _ fname body k =>
      forall r, ledger d.1 d.2 0 (k r)
  end.

(** The books of a state after [n] clicks: every accepted insert has had its
    invoke, and has its lead in the store or owed by a suspended handler;
    the inserts issued and still allowed are at most [n]. *)
Definition books (n : nat) (s : Loop.State) : Prop :=
  length (invokeCalls (Loop.history s)) = length (acceptedInserts (Loop.history s)) /\
  exists debts : list (nat * nat),
    Forall2 owes debts (Loop.pending s) /\
    length (sessionLeads (store (Loop.world s))) + sum_list_with snd debts =
      length (acceptedInserts (Loop.history s)) /\
    length (insertCalls (Loop.history s)) + sum_list_with fst debts <= n.

End Ledger.

(** ** The rendered form *)

(** The JSX has three blocks of this kind, in this order (lines 105-165):
    name, email, industry. *)
Definition blocks : list string := ["name"; "email"; "industry"].

(** What the visitor sees: each block with its view. *)
Definition render (w : World) : list (string * FieldView) :=
  (fun fld => (fld, fieldView w fld)) <$> blocks.

(** ** Statements that throw

    [handleSubmit] above takes every synchronous statement to succeed; only
    the two awaited calls may reject.  Here any statement of
    [LeadCaptureForm.tsx] may throw: [faulty n = Some e] says that the
    statement at line [n] of the file throws [e] instead of taking effect.
    What happens to the exception is then decided by where the statement
    stands with respect to the two [try] blocks (lines 27-80 and 50-66). *)

Module Faults.

Definition at_line (faulty : nat -> option string) (n : nat) {X : Type}
    (op : Sync X) : Proc X :=
  match faulty n with
  | Some e => Throw e
  | None => perform op
  end.

Section Handler.

Variable validateLeadForm : gmap string string -> list ValidationError.
Variable faulty : nat -> option string.

(** Lines 28-77, the body of the outer [try]. *)
Definition tryBody (formData : gmap string string) : Proc unit :=
  now <- at_line faulty 36 NewDateISO ;;
  res <- await (Insert "leads"
           [[("name", prop formData "name");
             ("email", prop formData "email");
             ("industry", prop formData "industry");
             ("submitted_at", now)]]) ;;
  match error res with
  | Some dbError =>
      at_line faulty 42
        (ConsoleError "CRITICAL: Database insert failed:" (ArgDbError dbError)) ;;;
      at_line faulty 43 (Alert ("Database Error: " +:+ pg_message dbError)) ;;;
      Ret tt
  | None =>
      at_line faulty 47
        (ConsoleLog "Lead saved to database successfully:" (ArgData (data res))) ;;;
      try_catch
        (res' <- await (Invoke "send-confirmation"
                   [("name", prop formData "name");
                    ("email", prop formData "email");
                    ("industry", prop formData "industry")]) ;;
         match fn_error res' with
         | Some emailError =>
             at_line faulty 60
               (ConsoleError "Error sending confirmation email:" (ArgFnError emailError))
         | None =>
             at_line faulty 62 (ConsoleLog "Confirmation email sent successfully" ArgNone)
         end)
        (fun emailError =>
           at_line faulty 65
             (ConsoleError "Error calling email function:" (ArgExn emailError))) ;;;
      now' <- at_line faulty 73 NewDateISO ;;
      let lead := {| name := prop formData "name";
                     email := prop formData "email";
                     industry := prop formData "industry";
                     submitted_at := now' |} in
      at_line faulty 75 (AddLead lead) ;;;
      at_line faulty 76 (SetSubmitted true) ;;;
      at_line faulty 77 (SetFormData emptyForm)
  end.

(** Lines 21-82.  Lines 22-24 stand before the [try] of line 27; the
    [console.error] of line 79 is the body of the outer [catch]. *)
Definition handleSubmit (formData : gmap string string) : Proc unit :=
  at_line faulty 22 PreventDefault ;;;
  errors <- match faulty 23 with
            | Some e => Throw e
            | None => Ret (validateLeadForm formData)
            end ;;
  at_line faulty 24 (SetValidationErrors errors) ;;;
  if Nat.eqb (length errors) 0 then
    try_catch (tryBody formData)
      (fun error =>
         at_line faulty 79
           (ConsoleError "Unexpected error during form submission:" (ArgExn error)))
  else Ret tt.

End Handler.

(** No statement throws. *)
Definition none : nat -> option string := fun _ => None.

(** Only the statement at line [n] throws. *)
Definition only (n : nat) (e : string) : nat -> option string :=
  fun m => if Nat.eqb m n then Some e else None.

(** Wherever an exception is raised in a submit, it is caught (the promise
    that [handleSubmit] returns is fulfilled, not rejected), and when the
    outer [catch] has logged one the store is as it was before the click. *)
Definition contained_anywhere
    (validateLeadForm : gmap string string -> list ValidationError)
    (faulty : nat -> option string) (env : Env) (w : World) : Prop :=
  let o := run env (handleSubmit validateLeadForm faulty (formData w)) w in
  result o = inl tt /\
  forall e,
    EvConsoleError "Unexpected error during form submission:" (ArgExn e) ∈ events o ->
    store (final o) = store w.

End Faults.
(** ** The interpretation and the control structures *)

Lemma emit_nil {A : Type} (o : Outcome A) : emit [] o = o.
Proof. destruct o. reflexivity. Qed.

Lemma emit_emit {A : Type} (evs evs' : list Event) (o : Outcome A) :
  emit evs (emit evs' o) = emit (evs ++ evs') o.
Proof. unfold emit. cbn. rewrite app_assoc. reflexivity. Qed.

(** Sequencing: the second part runs in the world the first one leaves,
    unless the first one throws. *)
Lemma run_bind {A B : Type} (env : Env) (p : Proc A) (f : A -> Proc B) (w : World) :
  run env (bind p f) w =
    match result (run env p w) with
    | inl a => emit (events (run env p w)) (run env (f a) (final (run env p w)))
    | inr e => {| result := inr e; final := final (run env p w);
                  events := events (run env p w) |}
    end.
Proof.
  revert w. induction p as [a|e|X op k IH|X c k IH]; intros w; cbn.
  - rewrite emit_nil. reflexivity.
  - reflexivity.
  - destruct (exec (clock env) true op w) as [[x w'] evs]. rewrite IH. cbn.
    destruct (result (run env (k x) w')); cbn; [rewrite emit_emit|]; reflexivity.
  - rewrite IH. cbn.
    destruct (result (run env (k (answer env c)) w)); cbn; [rewrite emit_emit|];
      reflexivity.
Qed.

(** [try]/[catch]: the handler runs in the world the body leaves when it
    throws, and only then. *)
Lemma run_try_catch {A : Type} (env : Env) (p : Proc A) (h : string -> Proc A)
    (w : World) :
  run env (try_catch p h) w =
    match result (run env p w) with
    | inl a => run env p w
    | inr e => emit (events (run env p w)) (run env (h e) (final (run env p w)))
    end.
Proof.
  revert w. induction p as [a|e|X op k IH|X c k IH]; intros w; cbn.
  - reflexivity.
  - rewrite emit_nil. reflexivity.
  - destruct (exec (clock env) true op w) as [[x w'] evs]. rewrite IH. cbn.
    destruct (result (run env (k x) w')); cbn; [|rewrite emit_emit]; reflexivity.
  - rewrite IH. cbn.
    destruct (result (run env (k (answer env c)) w)); cbn; [|rewrite emit_emit];
      reflexivity.
Qed.

(** A handler whose [catch] block cannot throw lets no exception out. *)
Lemma try_catch_contains {A : Type} (env : Env) (p : Proc A) (h : string -> Proc A)
    (w : World) :
  (forall e w', exists a, result (run env (h e) w') = inl a) ->
  exists a, result (run env (try_catch p h) w) = inl a.
Proof.
  intros Hh. rewrite run_try_catch.
  destruct (result (run env p w)) as [a|e] eqn:Hp; [eauto|].
  cbn. apply Hh.
Qed.

(** ** The paths of [handleSubmit] *)

Section Paths.

Variable validateLeadForm : gmap string string -> list ValidationError.
Variable env : Env.
Variable w : World.

Lemma submit_invalid :
  validateLeadForm (formData w) <> [] ->
  submit validateLeadForm env w = {| result := inl tt;
                                    final := with_validationErrors (validateLeadForm (formData w)) w;
                                    events := [EvPreventDefault] |}.
Proof.
  intros Hne. unfold submit, handleSubmit.
  destruct (validateLeadForm (formData w)) as [|e errs] eqn:Hv; [done|].
  reflexivity.
Qed.

Lemma submit_insert_rejected e :
  validateLeadForm (formData w) = [] ->
  insertAnswer env w = Rejected e ->
  submit validateLeadForm env w = {| result := inl tt;
                                    final := tick (with_validationErrors [] w);
                                    events := [EvPreventDefault;
                         EvInsert "leads" [insertRow (formData w) (clock env (ticks w))];
                         EvInsertSettled "leads" [insertRow (formData w) (clock env (ticks w))] (Rejected e);
                         EvConsoleError "Unexpected error during form submission:"
                                        (ArgExn e)] |}.
Proof.
  intros Hv Hdb. unfold insertAnswer, insertRow in Hdb.
  unfold submit, handleSubmit. rewrite Hv. cbn. rewrite Hdb. reflexivity.
Qed.

Lemma submit_insert_error r dbError :
  validateLeadForm (formData w) = [] ->
  insertAnswer env w = Fulfilled r ->
  error r = Some dbError ->
  submit validateLeadForm env w =
    {| result := inl tt;
       final := tick (with_validationErrors [] w);
       events := [EvPreventDefault;
                  EvInsert "leads" [insertRow (formData w) (clock env (ticks w))];
                  EvInsertSettled "leads" [insertRow (formData w) (clock env (ticks w))] (Fulfilled r);
                  EvConsoleError "CRITICAL: Database insert failed:" (ArgDbError dbError);
                  EvAlert ("Database Error: " +:+ pg_message dbError)] |}.
Proof.
  intros Hv Hdb Herr. unfold insertAnswer, insertRow in Hdb.
  unfold submit, handleSubmit. rewrite Hv. cbn. rewrite Hdb. cbn.
  rewrite Herr. reflexivity.
Qed.

Lemma submit_insert_ok r :
  validateLeadForm (formData w) = [] ->
  insertAnswer env w = Fulfilled r ->
  error r = None ->
  submit validateLeadForm env w =
    {| result := inl tt;
       final := committed env w;
       events := [EvPreventDefault;
                  EvInsert "leads" [insertRow (formData w) (clock env (ticks w))];
                  EvInsertSettled "leads" [insertRow (formData w) (clock env (ticks w))] (Fulfilled r);
                  EvConsoleLog "Lead saved to database successfully:" (ArgData (data r));
                  EvInvoke "send-confirmation" (invokeBody (formData w));
                  EvInvokeSettled "send-confirmation" (invokeBody (formData w)) (invokeAnswer env w);
                  notifyLog (invokeAnswer env w)] |}.
Proof.
  intros Hv Hdb Herr. unfold insertAnswer, insertRow in Hdb.
  unfold submit, handleSubmit. rewrite Hv. cbn. rewrite Hdb. cbn.
  rewrite Herr. cbn. unfold invokeAnswer, invokeBody.
  destruct (fn env _ _) as [r'|e]; cbn; [destruct (fn_error r'); cbn|]; reflexivity.
Qed.

End Paths.

(** ** The event loop and the single run *)

Section Loop_facts.

Import Loop.

Variable validateLeadForm : gmap string string -> list ValidationError.
Variable clk : nat -> string.

Local Abbreviation persisted := (persisted validateLeadForm).
Local Abbreviation safe := (safe validateLeadForm).
Local Abbreviation safe_suspended := (safe_suspended validateLeadForm).
Local Abbreviation invariant := (invariant validateLeadForm).

(** Pausing at the [await]s and answering them from the environment is the
    single run. *)
Lemma run_advance {A : Type} (env : Env) (p : Proc A) (w : World) :
  match advance (clock env) true p w with
  | (Finished r, w', evs) =>
      run env p w = {| result := r; final := w'; events := evs |}
  | (Awaiting c k, w', evs) =>
      run env p w =
        emit (evs ++ [settled c (answer env c)]) (run env (k (answer env c)) w')
  end.
Proof.
  revert w. induction p as [a|e|X op k IH|X c k IH]; intros w; cbn.
  - reflexivity.
  - reflexivity.
  - destruct (exec (clock env) true op w) as [[x w'] evs].
    specialize (IH x w').
    destruct (advance (clock env) true (k x) w') as [[[r|Y c' k'] w''] evs'].
    + rewrite IH. reflexivity.
    + rewrite IH. unfold emit. cbn. rewrite !app_assoc. reflexivity.
  - reflexivity.
Qed.

Lemma has_fields_emptyForm : has_fields emptyForm.
Proof. repeat split; vm_compute; eauto. Qed.

Lemma has_fields_insert (fd : gmap string string) (k v : string) :
  has_fields fd -> has_fields (<[k := v]> fd).
Proof.
  unfold has_fields. rewrite !lookup_insert_is_Some'. tauto.
Qed.

Lemma persisted_mono (seen seen' : list Event) (l : Lead) :
  seen ⊆ seen' -> persisted seen l -> persisted seen' l.
Proof.
  intros Hsub (fd & t & r & Hv & Herr & Hin & Hfields).
  exists fd, t, r. auto.
Qed.

Lemma after_insert_mono (seen seen' : list Event) {X : Type} (c : Call X) :
  seen ⊆ seen' -> after_insert seen c -> after_insert seen' c.
Proof.
  intros Hsub. destruct c as [table rows|fname body]; cbn; [trivial|].
  intros (fd & t & r & Herr & Hin & Hbody). exists fd, t, r. auto.
Qed.

Lemma notified_after_app (h evs : list Event) :
  notified_after h ->
  (forall fname body, EvInvoke fname body ∈ evs -> after_insert h (Invoke fname body)) ->
  notified_after (h ++ evs).
Proof.
  intros Hh Hevs i fname body [Hi|[Hlen Hi]]%lookup_app_Some.
  - destruct (Hh i fname body Hi) as (j & fd & t & r & Hlt & Hj & Herr & Hbody).
    exists j, fd, t, r. repeat split; auto. apply lookup_app_l_Some, Hj.
  - destruct (Hevs fname body (list_elem_of_lookup_2 _ _ _ Hi))
      as (fd & t & r & Herr & Hin & Hbody).
    apply list_elem_of_lookup_1 in Hin as [j Hj].
    exists j, fd, t, r. repeat split; auto.
    + apply lookup_lt_Some in Hj. lia.
    + apply lookup_app_l_Some, Hj.
Qed.

Lemma exec_no_invoke (live : bool) {X : Type} (op : Sync X) (w : World)
    (fname : string) (body : list (string * string)) :
  EvInvoke fname body ∉ (exec clk live op w).2.
Proof.
  destruct op; cbn; intros Hin;
    repeat (apply elem_of_cons in Hin as [Hin|Hin]; [discriminate|]);
    inversion Hin.
Qed.

Lemma snoc_subseteq (seen seen' : list Event) (ev : Event) :
  seen ⊆ seen' -> seen ++ [ev] ⊆ seen' ++ [ev].
Proof.
  intros Hsub x [Hx|Hx]%elem_of_app; apply elem_of_app; auto.
Qed.

Lemma safe_mono {A : Type} (p : Proc A) :
  forall (seen seen' : list Event) (b b' : bool),
  seen ⊆ seen' -> (b = true -> b' = true) -> safe seen b p -> safe seen' b' p.
Proof.
  induction p as [a|e|X op k IH|X c k IH]; intros seen seen' b b' Hsub Hb; cbn.
  - trivial.
  - trivial.
  - intros (Hraise & Hadd & Hform & Hk). split; [auto|]. split; [|split; [exact Hform|]].
    + intros l Hl. eapply persisted_mono; eauto.
    + intros x. apply (IH x seen seen' (b || appends op)); [exact Hsub| |apply Hk].
      destruct b, b', (appends op); cbn; auto.
  - intros (Hafter & Hk). split; [eapply after_insert_mono; eauto|].
    intros r. eapply IH; [apply snoc_subseteq, Hsub|exact Hb|apply Hk].
Qed.

Lemma resetOnMount_safe (seen : list Event) (b : bool) : safe seen b resetOnMount.
Proof. cbn. split; [discriminate|]. split; [discriminate|]. split; trivial. Qed.

Ltac split_goal := repeat match goal with |- _ /\ _ => split end.

Ltac quiet_op := split; [discriminate|]; split; [discriminate|]; split; [exact I|].

Lemma handleInputChange_safe (seen : list Event) (b : bool)
    (errs : list ValidationError) (fld value : string) :
  safe seen b (handleInputChange errs fld value).
Proof.
  unfold handleInputChange. cbn.
  split; [discriminate|]. split; [discriminate|].
  split; [intros fd; apply has_fields_insert|]. intros [].
  destruct (existsb _ errs); cbn; [quiet_op; trivial|trivial].
Qed.

Lemma handleSubmit_safe (seen : list Event) (b : bool) (fd : gmap string string) :
  safe seen b (handleSubmit validateLeadForm fd).
Proof.
  apply (safe_mono _ seen seen false); [done|discriminate|].
  unfold handleSubmit. cbn. quiet_op. intros []. quiet_op. intros [].
  destruct (validateLeadForm fd) as [|e0 errs] eqn:Hv; cbn; [|trivial].
  quiet_op. intros now. split; [exact I|]. intros [r|e]; cbn.
  - destruct (error r) as [dbError|] eqn:Herr; cbn.
    + quiet_op. intros []. quiet_op. trivial.
    + quiet_op. intros []. split.
      { exists fd, now, r. repeat split; auto.
        rewrite elem_of_app, list_elem_of_singleton. auto. }
      intros r'.
      assert (Hl : forall now', persisted
                (seen ++ [EvInsertSettled "leads" [insertRow fd now] (Fulfilled r)]
                      ++ [EvInvokeSettled "send-confirmation" (invokeBody fd) r'])
                (leadOf fd now')).
      { intros now'. exists fd, now, r. repeat split; auto.
        rewrite !elem_of_app, !list_elem_of_singleton. auto. }
      rewrite <- app_assoc.
      destruct r' as [r'|e]; cbn; [destruct (fn_error r'); cbn|];
        (quiet_op; intros []; quiet_op; intros now';
         split; [discriminate|]; split; [intros l [= <-]; apply Hl|];
         split; [exact I|]; intros [];
         split; [reflexivity|]; split; [discriminate|]; split; [exact I|]; intros [];
         split; [discriminate|]; split; [discriminate|];
         split; [apply has_fields_emptyForm|]; trivial).
  - quiet_op. trivial.
Qed.

Lemma has_lead_addLead (l : Lead) (w : World) :
  has_lead (with_store (addLead l (store w)) w) = true.
Proof.
  unfold has_lead. cbn. destruct (sessionLeads (store w)); reflexivity.
Qed.

(** One operation of a safe handler keeps the flag over a non-empty store,
    the leads persisted and the form complete, and never empties the
    store. *)
Lemma exec_safe (live : bool) {X : Type} (op : Sync X)
    (seen : list Event) (b : bool) (w : World) :
  flag_ok w ->
  (b = true -> has_lead w = true) ->
  (forall l, l ∈ sessionLeads (store w) -> persisted seen l) ->
  (raises op = true -> b = true) ->
  (forall l, added op = Some l -> persisted seen l) ->
  has_fields (formData w) ->
  keeps_form op ->
  let w' := (exec clk live op w).1.2 in
  flag_ok w' /\
  has_fields (formData w') /\
  (b || appends op = true -> has_lead w' = true) /\
  (has_lead w = true -> has_lead w' = true) /\
  (forall l, l ∈ sessionLeads (store w') -> persisted seen l).
Proof.
  intros Hok Hb Hleads Hraise Hadd Hfd Hform.
  destruct op as [|errs|fd|f|f| | | | |l0|b0]; cbn in Hraise, Hadd, Hform |- *;
    rewrite ?orb_false_r, ?orb_true_r.
  1, 6-9: split_goal; auto.
  1-4: destruct live; cbn; split_goal; auto.
  - pose proof (has_lead_addLead l0 w) as Hl.
    split; [intros _; exact Hl|]. split; [exact Hfd|].
    split; [intros _; exact Hl|]. split; [intros _; exact Hl|].
    intros l [Hin|Hin]%elem_of_app; [auto|].
    apply list_elem_of_singleton in Hin as ->. apply Hadd. reflexivity.
  - destruct b0; cbn in *.
    + split_goal; auto. intros _. apply Hb, Hraise. reflexivity.
    + split_goal; auto. intros Hs. discriminate.
Qed.

Lemma safe_suspend (owner : nat) {X : Type} (c : Call X)
    (k : Settled X -> Proc unit) (seen : list Event) (b : bool) :
  (forall r, safe (seen ++ [settled c r]) b (k r)) ->
  safe_suspended seen b (suspend owner c k).
Proof. destruct c; cbn; auto. Qed.

Lemma issued_invoke {X : Type} (c : Call X) (seen : list Event)
    (fname : string) (body : list (string * string)) :
  after_insert seen c ->
  EvInvoke fname body ∈ [issued c] ->
  after_insert seen (Invoke fname body).
Proof.
  intros Hafter Hin. apply list_elem_of_singleton in Hin.
  destruct c as [table rows|fname' body']; cbn in Hin; [discriminate|].
  injection Hin as -> ->. exact Hafter.
Qed.

Lemma advance_safe (live : bool) (owner : nat) (seen : list Event) (p : Proc unit) :
  forall (b : bool) (w : World),
  safe seen b p -> flag_ok w -> (b = true -> has_lead w = true) ->
  (forall l, l ∈ sessionLeads (store w) -> persisted seen l) ->
  has_fields (formData w) ->
  let '(st, w', evs) := advance clk live p w in
  (forall fname body, EvInvoke fname body ∈ evs -> after_insert seen (Invoke fname body)) /\
  flag_ok w' /\
  has_fields (formData w') /\
  (has_lead w = true -> has_lead w' = true) /\
  (forall l, l ∈ sessionLeads (store w') -> persisted seen l) /\
  forall h, h ∈ park owner st -> safe_suspended seen (has_lead w') h.
Proof.
  induction p as [a|e|X op k IH|X c k IH]; intros b w Hsafe Hok Hb Hleads Hfd; cbn.
  - split; [intros f body Hin; inversion Hin|].
    split; [exact Hok|]. split; [exact Hfd|]. split; [auto|]. split; [exact Hleads|].
    intros h Hh. inversion Hh.
  - split; [intros f body Hin; inversion Hin|].
    split; [exact Hok|]. split; [exact Hfd|]. split; [auto|]. split; [exact Hleads|].
    intros h Hh. inversion Hh.
  - destruct Hsafe as (Hraise & Hadd & Hform & Hk).
    destruct (exec_safe live op seen b w Hok Hb Hleads Hraise Hadd Hfd Hform)
      as (Hok' & Hfd' & Hb' & Hmono & Hleads').
    pose proof (exec_no_invoke live op w) as Hquiet.
    destruct (exec clk live op w) as [[x w'] evs].
    cbn in Hok', Hfd', Hb', Hmono, Hleads', Hquiet.
    specialize (IH x (b || appends op) w' (Hk x) Hok' Hb' Hleads' Hfd').
    destruct (advance clk live (k x) w') as [[st w''] evs'].
    destruct IH as (Hevs & Hok'' & Hfd'' & Hmono' & Hleads'' & Hpark).
    split.
    { intros f body [Hin|Hin]%elem_of_app;
        [destruct (Hquiet _ _ Hin)|exact (Hevs _ _ Hin)]. }
    split; [exact Hok''|]. split; [exact Hfd''|]. split; [auto|].
    split; [exact Hleads''|exact Hpark].
  - destruct Hsafe as (Hafter & Hk).
    split; [intros f body; apply issued_invoke, Hafter|].
    split; [exact Hok|]. split; [exact Hfd|]. split; [auto|]. split; [exact Hleads|].
    intros h Hh.
    apply list_elem_of_singleton in Hh as ->.
    apply safe_suspend. intros r. eapply safe_mono; [done|exact Hb|apply Hk].
Qed.

Lemma safe_suspended_mono (h : Suspended) (seen seen' : list Event) (b b' : bool) :
  seen ⊆ seen' -> (b = true -> b' = true) ->
  safe_suspended seen b h -> safe_suspended seen' b' h.
Proof.
  intros Hsub Hb. destruct h; cbn; intros Hk r;
    (eapply safe_mono; [apply snoc_subseteq, Hsub|exact Hb|apply Hk]).
Qed.

Lemma schedule_invariant (owner : nat) (p : Proc unit) (before : list Event)
    (rest : list Suspended) (s : State) :
  notified_after (history s) ->
  (forall fname body, EvInvoke fname body ∉ before) ->
  flag_ok (world s) ->
  has_fields (formData (world s)) ->
  (forall l, l ∈ sessionLeads (store (world s)) -> persisted (history s) l) ->
  safe (history s ++ before) (has_lead (world s)) p ->
  (forall h, h ∈ rest -> safe_suspended (history s) (has_lead (world s)) h) ->
  invariant (schedule clk owner p before rest s).
Proof.
  intros Hhist Hbefore Hok Hfd Hleads Hsafe Hrest. unfold schedule.
  assert (Hleads0 : forall l, l ∈ sessionLeads (store (world s)) ->
                              persisted (history s ++ before) l).
  { intros l Hl. eapply persisted_mono; [|apply Hleads, Hl].
    intros x Hx. apply elem_of_app. auto. }
  pose proof (advance_safe (bool_decide (owner = instance s)) owner
                (history s ++ before) p (has_lead (world s)) (world s)
                Hsafe Hok (fun H => H) Hleads0 Hfd) as Hadv.
  destruct (advance clk _ p (world s)) as [[st w'] evs].
  destruct Hadv as (Hevs & Hok' & Hfd' & Hmono & Hleads' & Hpark).
  assert (Hsub : history s ++ before ⊆ history s ++ before ++ evs).
  { intros x Hx. rewrite app_assoc. apply elem_of_app. auto. }
  assert (Hsub0 : history s ⊆ history s ++ before ++ evs).
  { intros x Hx. apply elem_of_app. auto. }
  split; cbn.
  { rewrite app_assoc. apply notified_after_app; [|exact Hevs].
    apply notified_after_app; [exact Hhist|].
    intros f body Hin. destruct (Hbefore _ _ Hin). }
  split; [exact Hok'|]. split; [exact Hfd'|]. split.
  - intros l Hl. eapply persisted_mono; [exact Hsub|auto].
  - intros h [Hh|Hh]%elem_of_app.
    + apply (safe_suspended_mono h (history s) _ (has_lead (world s)) (has_lead w'));
        [exact Hsub0|exact Hmono|auto].
    + apply (safe_suspended_mono h (history s ++ before) _ (has_lead w') (has_lead w'));
        [exact Hsub|auto|auto].
Qed.

Lemma step_invariant (a : Action) (s s' : State) :
  invariant s -> step validateLeadForm clk a s = Some s' -> invariant s'.
Proof.
  intros (Hhist & Hok & Hfd & Hleads & Hpending) Hstep.
  assert (Hnil : forall fname body, EvInvoke fname body ∉ @nil Event)
    by (intros f b Hin; inversion Hin).
  destruct a as [|fld value| |i r|i r]; unfold step in Hstep.
  - injection Hstep as <-.
    apply schedule_invariant; auto using resetOnMount_safe, has_fields_emptyForm.
  - injection Hstep as <-.
    apply schedule_invariant; auto using handleInputChange_safe.
  - injection Hstep as <-.
    apply schedule_invariant; auto using handleSubmit_safe.
  - destruct (pending s !! i) as [[owner t rows k|owner f body k]|] eqn:Hi;
      [|discriminate..].
    injection Hstep as <-. apply schedule_invariant; auto.
    + intros f b Hin. apply list_elem_of_singleton in Hin. discriminate.
    + apply (Hpending _ (list_elem_of_lookup_2 _ _ _ Hi)).
    + intros h Hh. apply Hpending. eapply list_elem_of_delete_inv, Hh.
  - destruct (pending s !! i) as [[owner t rows k|owner f body k]|] eqn:Hi;
      [discriminate| |discriminate].
    injection Hstep as <-. apply schedule_invariant; auto.
    + intros f' b Hin. apply list_elem_of_singleton in Hin. discriminate.
    + apply (Hpending _ (list_elem_of_lookup_2 _ _ _ Hi)).
    + intros h Hh. apply Hpending. eapply list_elem_of_delete_inv, Hh.
Qed.

Lemma steps_invariant (acts : list Action) :
  forall s s', invariant s -> steps validateLeadForm clk acts s = Some s' -> invariant s'.
Proof.
  induction acts as [|a acts IH]; intros s s' Hinv Hsteps; cbn in Hsteps.
  - injection Hsteps as <-. exact Hinv.
  - destruct (step validateLeadForm clk a s) as [s1|] eqn:Hstep; [|discriminate].
    eapply IH; [|exact Hsteps]. eapply step_invariant; eauto.
Qed.

Lemma init_invariant : invariant init.
Proof.
  split; [intros i f body Hi; discriminate|].
  split; [discriminate|]. split; [apply has_fields_emptyForm|].
  split; intros x Hx; inversion Hx.
Qed.

(** In every state the event loop reaches, the form has its three
    properties: a property read never meets a missing key. *)
Lemma reachable_has_fields (acts : list Action) (s : State) :
  steps validateLeadForm clk acts init = Some s -> has_fields (formData (world s)).
Proof.
  intros Hsteps.
  destruct (steps_invariant acts _ _ init_invariant Hsteps) as (_ & _ & Hfd & _).
  exact Hfd.
Qed.

End Loop_facts.

(** ** The outcome of a submission *)

Ltac in_list :=
  repeat first [ apply list_elem_of_here | apply list_elem_of_further ].

(** C1.  When validation passes and the insert comes back with an error, the
    notification gateway is not called, the store (list and flag) is what it
    was, the form keeps the values entered, the failure is shown in a
    dialog, and the handler returns. *)
Theorem persist_failure_halts
    (validateLeadForm : gmap string string -> list ValidationError)
    (env : Env) (w : World) (r : DbResponse) (dbError : PostgrestError) :
  validateLeadForm (formData w) = [] ->
  insertAnswer env w = Fulfilled r ->
  error r = Some dbError ->
  let o := submit validateLeadForm env w in
  invokeCalls (events o) = [] /\
  store (final o) = store w /\
  (submitted (store w) = false -> submitted (store (final o)) = false) /\
  formData (final o) = formData w /\
  EvAlert ("Database Error: " +:+ pg_message dbError) ∈ events o /\
  result o = inl tt.
Proof.
  intros Hv Hdb Herr o. subst o.
  rewrite (submit_insert_error _ _ _ _ _ Hv Hdb Herr). cbn.
  repeat split; auto. in_list.
Qed.

Lemma persist_failure_halts_witness :
  let V := Validation.validateLeadForm in
  let env := Sample.env Sample.refused Sample.sent in
  let w := Sample.world Sample.ann in
  V (formData w) = [] /\
  store (final (submit V env w)) = initialStore /\
  formData (final (submit V env w)) = Sample.ann /\
  invokeCalls (events (submit V env w)) = [].
Proof.
  intros V env w.
  assert (Hv : V (formData w) = []) by (vm_compute; reflexivity).
  split; [exact Hv|].
  destruct (persist_failure_halts V env w _ _ Hv eq_refl eq_refl)
    as (Hcalls & Hstore & _ & Hform & _ & _).
  repeat split; assumption.
Defined.



(** C3.  For a valid form, one run sends the persistence gateway one insert
    whose row has the four fields name, email, industry, submitted_at in
    that order; if it succeeds, the notification gateway gets one invoke
    whose body has the three fields name, email, industry; if that succeeds
    too, the store gains one lead, the flag is raised and the three form
    fields are empty strings. *)
Theorem valid_submit_end_to_end
    (validateLeadForm : gmap string string -> list ValidationError)
    (env : Env) (w : World) :
  validateLeadForm (formData w) = [] ->
  let fd := formData w in
  let o := submit validateLeadForm env w in
  insertCalls (events o) =
    [("leads", [[("name", prop fd "name"); ("email", prop fd "email");
                 ("industry", prop fd "industry");
                 ("submitted_at", clock env (ticks w))]])] /\
  (forall r, insertAnswer env w = Fulfilled r -> error r = None ->
     invokeCalls (events o) =
       [("send-confirmation",
         [("name", prop fd "name"); ("email", prop fd "email");
          ("industry", prop fd "industry")])] /\
     (forall r', invokeAnswer env w = Fulfilled r' -> fn_error r' = None ->
        (exists l, sessionLeads (store (final o)) = sessionLeads (store w) ++ [l] /\
                   name l = prop fd "name" /\ email l = prop fd "email" /\
                   industry l = prop fd "industry") /\
        submitted (store (final o)) = true /\
        formData (final o) =
          {[ "name" := ""; "email" := ""; "industry" := "" ]})).
Proof.
  intros Hv fd o. subst fd o. split.
  - destruct (insertAnswer env w) as [r|e] eqn:Hdb.
    + destruct (error r) as [dbError|] eqn:Herr.
      * rewrite (submit_insert_error _ _ _ _ _ Hv Hdb Herr). reflexivity.
      * rewrite (submit_insert_ok _ _ _ _ Hv Hdb Herr). cbn.
        destruct (invokeAnswer env w) as [r'|e]; cbn; [destruct (fn_error r')|];
          reflexivity.
    + rewrite (submit_insert_rejected _ _ _ _ Hv Hdb). reflexivity.
  - intros r Hdb Herr. rewrite (submit_insert_ok _ _ _ _ Hv Hdb Herr). cbn. split.
    + destruct (invokeAnswer env w) as [r'|e]; cbn; [destruct (fn_error r')|];
        reflexivity.
    + intros r' _ _. repeat split; auto.
      eexists. split; [reflexivity|]. auto.
Qed.

Lemma valid_submit_end_to_end_witness :
  let V := Validation.validateLeadForm in
  let env := Sample.env Sample.accepted Sample.sent in
  let w := Sample.world Sample.ann in
  V (formData w) = [] /\
  insertCalls (events (submit V env w)) =
    [("leads", [[("name", "Ann"); ("email", "a@b.com"); ("industry", "technology");
                 ("submitted_at", "2025-07-10T13:51:08.000Z")]])] /\
  invokeCalls (events (submit V env w)) =
    [("send-confirmation",
      [("name", "Ann"); ("email", "a@b.com"); ("industry", "technology")])] /\
  submitted (store (final (submit V env w))) = true /\
  formData (final (submit V env w)) = emptyForm.
Proof.
  intros V env w.
  assert (Hv : V (formData w) = []) by (vm_compute; reflexivity).
  split; [exact Hv|].
  destruct (valid_submit_end_to_end V env w Hv) as (Hins & Hrest).
  destruct (Hrest _ eq_refl eq_refl) as (Hinv & Hcommit).
  destruct (Hcommit _ eq_refl eq_refl) as (_ & Hflag & Hform).
  split; [rewrite Hins; vm_compute; reflexivity|].
  split; [rewrite Hinv; vm_compute; reflexivity|].
  split; [exact Hflag | exact Hform].
Defined.

(** ** Validation as the gate *)

Lemma getFieldError_shown (errs : list ValidationError) (e : ValidationError) :
  e ∈ errs -> is_Some (getFieldError errs (field e)).
Proof.
  unfold getFieldError. induction 1 as [e errs|e e' errs _ IH]; cbn.
  - rewrite bool_decide_eq_true_2 by reflexivity. cbn. eauto.
  - destruct (bool_decide (field e' = field e)); cbn; eauto.
Qed.

(** ** Order of the two calls *)

(** C5.  In the trace of a run, an invoke is issued only after the insert
    has settled, and settled with success; a run issues at most one insert
    (no retry) and at most one invoke.  The order also holds in the trace of
    the event loop, where runs interleave at their [await]s: every invoke
    there comes after the successful settlement of an insert that carried
    the same name, email and industry. *)
Theorem notify_after_persist
    (validateLeadForm : gmap string string -> list ValidationError) :
  (forall (env : Env) (w : World),
     let evs := events (submit validateLeadForm env w) in
     (forall i fname body,
        evs !! i = Some (EvInvoke fname body) ->
        exists j table rows r,
          j < i /\ evs !! j = Some (EvInsertSettled table rows (Fulfilled r)) /\
          error r = None) /\
     length (insertCalls evs) <= 1 /\
     length (invokeCalls evs) <= 1) /\
  (forall (clk : nat -> string) (acts : list Loop.Action) (s : Loop.State),
     Loop.steps validateLeadForm clk acts Loop.init = Some s ->
     Loop.notified_after (Loop.history s)).
Proof.
  split.
  - intros env w evs. subst evs.
    destruct (validateLeadForm (formData w)) as [|e0 errs] eqn:Hv.
    + destruct (insertAnswer env w) as [r|e] eqn:Hdb.
      * destruct (error r) as [dbError|] eqn:Herr.
        -- rewrite (submit_insert_error _ _ _ _ _ Hv Hdb Herr). cbn.
           split; [|lia]. intros i ? ? Hi.
           do 5 (destruct i as [|i]; [discriminate|]). discriminate.
        -- rewrite (submit_insert_ok _ _ _ _ Hv Hdb Herr). cbn.
           assert (Hlog : forall f b, notifyLog (invokeAnswer env w) <> EvInvoke f b).
           { intros f b. destruct (invokeAnswer env w) as [r'|e]; cbn;
               [destruct (fn_error r')|]; discriminate. }
           split.
           ++ intros i f b Hi.
              do 4 (destruct i as [|i]; [discriminate|]).
              destruct i as [|i].
              { exists 2, "leads", [insertRow (formData w) (clock env (ticks w))], r.
                cbn. repeat split; [lia|exact Herr]. }
              destruct i as [|i]; [discriminate|].
              destruct i as [|i]; [|discriminate].
              cbn in Hi. injection Hi as Hi. destruct (Hlog _ _ Hi).
           ++ destruct (invokeAnswer env w) as [r'|e]; cbn;
                [destruct (fn_error r')|]; cbn; lia.
      * rewrite (submit_insert_rejected _ _ _ _ Hv Hdb). cbn.
        split; [|lia]. intros i ? ? Hi.
        do 4 (destruct i as [|i]; [discriminate|]). discriminate.
    + rewrite submit_invalid by (rewrite Hv; discriminate). cbn.
      split; [|lia]. intros i ? ? Hi.
      destruct i as [|i]; discriminate.
  - intros clk acts s Hsteps.
    destruct (steps_invariant validateLeadForm clk acts _ _
                (init_invariant validateLeadForm) Hsteps) as (Hhist & _).
    exact Hhist.
Qed.

Lemma notify_after_persist_witness :
  exists s,
    Loop.steps Validation.validateLeadForm Sample.time Sample.session Loop.init = Some s /\
    Loop.history s !! 4 =
      Some (EvInvoke "send-confirmation"
              [("name", "Ann"); ("email", "a@b.com"); ("industry", "technology")]) /\
    Loop.notified_after (Loop.history s).
Proof.
  destruct (Loop.steps Validation.validateLeadForm Sample.time Sample.session Loop.init)
    as [s|] eqn:Hs; [|vm_compute in Hs; discriminate].
  exists s. split; [reflexivity|]. split.
  - vm_compute in Hs. injection Hs as <-. reflexivity.
  - destruct (notify_after_persist Validation.validateLeadForm) as (_ & Hloop).
    exact (Hloop _ _ _ Hs).
Defined.

(** ** Exceptions *)

Lemma contained_run {A : Type} (env : Env) (p : Proc A) (w : World) :
  contained p -> exists a, result (run env p w) = inl a.
Proof.
  revert w. induction p as [a|e|X op k IH|X c k IH]; intros w Hp; cbn in Hp |- *.
  - eauto.
  - destruct Hp.
  - destruct (exec (clock env) true op w) as [[x w'] evs]. cbn. auto.
  - auto.
Qed.

Lemma handleSubmit_contained
    (validateLeadForm : gmap string string -> list ValidationError)
    (fd : gmap string string) :
  contained (handleSubmit validateLeadForm fd).
Proof.
  unfold handleSubmit. cbn. intros [] [].
  destruct (validateLeadForm fd) as [|e0 errs]; cbn; [|exact I].
  intros now [r|e]; cbn; [|intros []; exact I].
  destruct (error r) as [dbError|]; cbn; [intros [] []; exact I|].
  intros [] [r'|e]; cbn; [destruct (fn_error r'); cbn|];
    intros [] now' [] [] []; exact I.
Qed.

(** ** Mounting *)

Lemma mount_final (env : Env) (w : World) :
  final (mount env w) =
    {| formData := emptyForm; validationErrors := [];
       store := setSubmitted false (store w); ticks := ticks w |}.
Proof. reflexivity. Qed.

(** C8.  Every mount lowers the flag, whatever the state it is performed
    in (also with submissions in flight), and leaves the leads alone; doing
    it again changes nothing more, so any number of mounts lowers the flag
    and keeps the leads. *)
Theorem reset_on_mount_idempotent (env : Env) (w : World) (n : nat) :
  let remount := fun w => final (mount env w) in
  submitted (store (remount w)) = false /\
  sessionLeads (store (remount w)) = sessionLeads (store w) /\
  store (final (run env resetOnMount w)) = setSubmitted false (store w) /\
  remount (remount w) = remount w /\
  submitted (store (Nat.iter (S n) remount w)) = false /\
  sessionLeads (store (Nat.iter n remount w)) = sessionLeads (store w) /\
  (forall validateLeadForm clk s,
     exists s',
       Loop.step validateLeadForm clk Loop.Mount s = Some s' /\
       submitted (store (Loop.world s')) = false /\
       sessionLeads (store (Loop.world s')) = sessionLeads (store (Loop.world s)) /\
       Loop.pending s' = Loop.pending s).
Proof.
  intros remount.
  assert (Hleads : forall m, sessionLeads (store (Nat.iter m remount w)) =
                             sessionLeads (store w)).
  { induction m as [|m IH]; [reflexivity|].
    rewrite Nat.iter_succ. unfold remount at 1. rewrite mount_final. exact IH. }
  split; [reflexivity|]. split; [reflexivity|]. split; [reflexivity|].
  split; [reflexivity|]. split; [|split; [apply Hleads|]].
  - rewrite Nat.iter_succ. unfold remount at 1. rewrite mount_final. reflexivity.
  - intros V clk s. eexists. split; [reflexivity|]. cbn.
    repeat split. apply app_nil_r.
Qed.

(** ** Keystrokes *)

Lemma filter_field_id (fld : string) (errs : list ValidationError) :
  existsb (fun error => bool_decide (field error = fld)) errs = false ->
  filter (fun error => field error <> fld) errs = errs.
Proof.
  induction errs as [|e errs IH]; cbn [existsb]; [reflexivity|].
  intros [He Hrest]%orb_false_iff.
  apply bool_decide_eq_false in He.
  rewrite filter_cons_True by exact He. f_equal. auto.
Qed.

Lemma change_final (env : Env) (w : World) (fld value : string) :
  final (change env fld value w) =
    {| formData := <[fld := value]> (formData w);
       validationErrors := filter (fun error => field error <> fld) (validationErrors w);
       store := store w; ticks := ticks w |}.
Proof.
  unfold change, handleInputChange. cbn.
  destruct (existsb _ (validationErrors w)) eqn:Hsome; cbn.
  - reflexivity.
  - rewrite (filter_field_id _ _ Hsome). reflexivity.
Qed.

Lemma submit_validationErrors
    (validateLeadForm : gmap string string -> list ValidationError)
    (env : Env) (w : World) :
  validationErrors (final (submit validateLeadForm env w)) =
    validateLeadForm (formData w).
Proof.
  destruct (validateLeadForm (formData w)) as [|e0 errs] eqn:Hv.
  - destruct (insertAnswer env w) as [r|e] eqn:Hdb.
    + destruct (error r) as [dbError|] eqn:Herr.
      * rewrite (submit_insert_error _ _ _ _ _ Hv Hdb Herr). reflexivity.
      * rewrite (submit_insert_ok _ _ _ _ Hv Hdb Herr). reflexivity.
    + rewrite (submit_insert_rejected _ _ _ _ Hv Hdb). reflexivity.
  - rewrite submit_invalid by (rewrite Hv; discriminate). cbn. exact Hv.
Qed.

(** C9.  A keystroke in a field removes the displayed errors of that field
    and no other (the remaining ones keep their order), writes that field of
    the form and no other, and does not touch the store; this holds in
    particular when the field has an error.  A validation pass replaces the
    displayed errors by the validator's result, whatever they were. *)
Theorem keystroke_discards_field_errors
    (validateLeadForm : gmap string string -> list ValidationError)
    (env : Env) (w : World) (fld value : string) :
  let o := change env fld value w in
  validationErrors (final o) =
    filter (fun error => field error <> fld) (validationErrors w) /\
  (forall e, e ∈ validationErrors (final o) <->
             e ∈ validationErrors w /\ field e <> fld) /\
  (forall k, k <> fld -> formData (final o) !! k = formData w !! k) /\
  formData (final o) !! fld = Some value /\
  store (final o) = store w /\
  validationErrors (final (submit validateLeadForm env w)) =
    validateLeadForm (formData w).
Proof.
  intros o. subst o. rewrite change_final. cbn.
  split; [reflexivity|]. split; [|split; [|split; [|split]]].
  - intros e. rewrite list_elem_of_filter. tauto.
  - intros k Hk. apply lookup_insert_ne. congruence.
  - apply lookup_insert_eq.
  - reflexivity.
  - apply submit_validationErrors.
Qed.

(** ** The stored lead and the persisted row *)

Lemma app_snoc_neq {A : Type} (l : list A) (x : A) : l <> l ++ [x].
Proof.
  intros H. apply (f_equal length) in H. rewrite length_app in H. cbn in H. lia.
Qed.

(** C6, as stated, fails: with a clock that advances during the two calls,
    the lead kept in the store carries a later [submitted_at] than the row
    the gateway accepted. *)
Lemma stored_as_persisted_fails :
  ~ stored_as_persisted Validation.validateLeadForm
      (Sample.env Sample.accepted Sample.sent) (Sample.world Sample.ann).
Proof.
  unfold stored_as_persisted. intros H.
  assert (Hv : Validation.validateLeadForm (formData (Sample.world Sample.ann)) = [])
    by (vm_compute; reflexivity).
  rewrite (submit_insert_ok Validation.validateLeadForm
             (Sample.env Sample.accepted Sample.sent) (Sample.world Sample.ann)
             {| data := Some [insertRow Sample.ann (Sample.time 0)]; error := None |}
             Hv eq_refl eq_refl) in H.
  cbn in H.
  destruct (H _ eq_refl) as (r & _ & Hin).
  rewrite !elem_of_cons in Hin.
  repeat (destruct Hin as [Hin|Hin]; [discriminate|]).
  inversion Hin.
Qed.

(** ** The flag and the store *)

(** C10.  In every state the event loop reaches from the loaded page,
    whatever the user does and however the answers of the gateways
    interleave with it, a raised flag comes with a store that holds at least
    one lead. *)
Theorem submitted_implies_lead
    (validateLeadForm : gmap string string -> list ValidationError)
    (clk : nat -> string) (acts : list Loop.Action) (s : Loop.State) :
  Loop.steps validateLeadForm clk acts Loop.init = Some s ->
  submitted (store (Loop.world s)) = true ->
  sessionLeads (store (Loop.world s)) <> [].
Proof.
  intros Hsteps Hflag.
  destruct (steps_invariant validateLeadForm clk acts _ _
              (init_invariant validateLeadForm) Hsteps) as (_ & Hok & _).
  specialize (Hok Hflag). unfold Loop.has_lead in Hok.
  destruct (sessionLeads (store (Loop.world s))); [discriminate|discriminate].
Qed.

Lemma submitted_implies_lead_witness :
  exists s,
    Loop.steps Validation.validateLeadForm Sample.time Sample.session Loop.init = Some s /\
    submitted (store (Loop.world s)) = true /\
    sessionLeads (store (Loop.world s)) <> [].
Proof.
  destruct (Loop.steps Validation.validateLeadForm Sample.time Sample.session Loop.init)
    as [s|] eqn:Hs; [|vm_compute in Hs; discriminate].
  exists s. split; [reflexivity|].
  assert (Hflag : submitted (store (Loop.world s)) = true).
  { vm_compute in Hs. injection Hs as <-. reflexivity. }
  split; [exact Hflag|].
  exact (submitted_implies_lead _ _ _ _ Hs Hflag).
Defined.

(** ** Two concrete sessions *)

(** A keystroke in the email field, after a validation pass flagged it. *)
Example keystroke_clears_email_error :
  let o := change (Sample.env Sample.accepted Sample.sent) "email" "ann@b.com"
             Sample.flagged in
  getFieldError (validationErrors Sample.flagged) "email" =
    Some "Please enter a valid email address" /\
  validationErrors (final o) = [] /\
  prop (formData (final o)) "email" = "ann@b.com" /\
  prop (formData (final o)) "name" = "Ann".
Proof. vm_compute. auto. Qed.

(** The visitor leaves while the insert is in flight, comes back and types
    in the new form; the old handler still commits to the shared store but
    no longer resets a form. *)
Example commit_after_remount :
  exists s,
    Loop.steps Validation.validateLeadForm Sample.time
      [Loop.Mount;
       Loop.Change "name" "Ann";
       Loop.Change "email" "a@b.com";
       Loop.Change "industry" "technology";
       Loop.Submit;
       Loop.Mount;
       Loop.Change "name" "Bob";
       Loop.SettleInsert 0 Sample.accepted;
       Loop.SettleInvoke 0 Sample.sent]
      Loop.init = Some s /\
    Loop.pending s = [] /\
    store (Loop.world s) =
      {| sessionLeads := [{| name := "Ann"; email := "a@b.com";
                             industry := "technology";
                             submitted_at := "2025-07-10T13:51:09.250Z" |}];
         submitted := true |} /\
    prop (formData (Loop.world s)) "name" = "Bob".
Proof. eexists. vm_compute. auto. Qed.

(** ** More on the form: error lookup, keystrokes, the view *)

Lemma getFieldError_cons (e : ValidationError) (errs : list ValidationError)
    (fld : string) :
  getFieldError (e :: errs) fld =
    if bool_decide (field e = fld) then Some (message e) else getFieldError errs fld.
Proof. unfold getFieldError. cbn. destruct (bool_decide _); reflexivity. Qed.

Lemma getFieldError_None (errs : list ValidationError) (fld : string) :
  getFieldError errs fld = None <-> forall e, e ∈ errs -> field e <> fld.
Proof.
  induction errs as [|e errs IH].
  - split; [intros _ e He; inversion He|reflexivity].
  - rewrite getFieldError_cons. destruct (bool_decide_reflect (field e = fld)) as [He|He].
    + split; [discriminate|]. intros H. destruct (H e); [left|exact He].
    + rewrite IH. split.
      * intros H e' [->|Hin]%elem_of_cons; auto.
      * intros H e' Hin. apply H. right. exact Hin.
Qed.

Lemma getFieldError_Some (errs : list ValidationError) (fld m : string) :
  getFieldError errs fld = Some m <->
  exists pre e post,
    errs = pre ++ e :: post /\
    (forall e', e' ∈ pre -> field e' <> fld) /\
    field e = fld /\ message e = m.
Proof.
  induction errs as [|e0 errs IH].
  - split; [discriminate|]. intros (pre & e & post & Heq & _).
    destruct pre; discriminate.
  - rewrite getFieldError_cons.
    destruct (bool_decide_reflect (field e0 = fld)) as [He|He].
    + split.
      * intros [= <-]. exists [], e0, errs. repeat split; auto.
        intros e' Hin. inversion Hin.
      * intros (pre & e & post & Heq & Hpre & Hf & Hm).
        destruct pre as [|e1 pre]; cbn in Heq; injection Heq as -> ->.
        -- rewrite Hm. reflexivity.
        -- destruct (Hpre e1); [left|exact He].
    + rewrite IH. split.
      * intros (pre & e & post & -> & Hpre & Hf & Hm).
        exists (e0 :: pre), e, post. repeat split; auto.
        intros e' [->|Hin]%elem_of_cons; auto.
      * intros (pre & e & post & Heq & Hpre & Hf & Hm).
        destruct pre as [|e1 pre]; cbn in Heq; injection Heq as -> ->.
        -- destruct (He Hf).
        -- exists pre, e, post. repeat split; auto.
           intros e' Hin. apply Hpre. right. exact Hin.
Qed.

(** X1.  [getFieldError] returns the message of the first error recorded for
    the field, and nothing exactly when no error is recorded for it. *)
Theorem getFieldError_first_match (errs : list ValidationError) (fld : string) :
  (getFieldError errs fld = None <-> forall e, e ∈ errs -> field e <> fld) /\
  (forall m,
     getFieldError errs fld = Some m <->
     exists pre e post,
       errs = pre ++ e :: post /\
       (forall e', e' ∈ pre -> field e' <> fld) /\
       field e = fld /\ message e = m).
Proof.
  split; [apply getFieldError_None|]. intros m. apply getFieldError_Some.
Qed.

Lemma getFieldError_filter_same (errs : list ValidationError) (fld : string) :
  getFieldError (filter (fun error => field error <> fld) errs) fld = None.
Proof.
  apply getFieldError_None. intros e [He _]%list_elem_of_filter. exact He.
Qed.

Lemma getFieldError_filter_other (errs : list ValidationError) (fld g : string) :
  g <> fld ->
  getFieldError (filter (fun error => field error <> fld) errs) g =
    getFieldError errs g.
Proof.
  intros Hg. induction errs as [|e errs IH]; [reflexivity|].
  destruct (decide (field e = fld)) as [He|He].
  - rewrite filter_cons_False by (intros H; exact (H He)).
    rewrite getFieldError_cons, bool_decide_eq_false_2 by congruence. exact IH.
  - rewrite filter_cons_True by exact He.
    rewrite !getFieldError_cons, IH. reflexivity.
Qed.

Lemma prop_insert (fd : gmap string string) (k v : string) :
  prop (<[k := v]> fd) k = v.
Proof. unfold prop. rewrite lookup_insert_eq. reflexivity. Qed.

Lemma prop_insert_ne (fd : gmap string string) (k g v : string) :
  g <> k -> prop (<[k := v]> fd) g = prop fd g.
Proof. intros Hg. unfold prop. rewrite lookup_insert_ne by congruence. reflexivity. Qed.

(** X2.  After a keystroke in a field, the block of that field shows the
    value typed, without red border or error paragraph; the blocks of the
    other fields show what they showed. *)
Theorem keystroke_view (env : Env) (w : World) (fld value : string) :
  let w' := final (change env fld value w) in
  fieldView w' fld =
    {| shown_value := value; highlighted := false; error_text := None |} /\
  (forall g, g <> fld -> fieldView w' g = fieldView w g).
Proof.
  intros w'. subst w'. rewrite change_final. unfold fieldView.
  cbn [formData validationErrors]. split.
  - rewrite prop_insert, getFieldError_filter_same. reflexivity.
  - intros g Hg. rewrite prop_insert_ne, getFieldError_filter_other by exact Hg.
    reflexivity.
Qed.

Lemma filter_field_comm (f g : string) (errs : list ValidationError) :
  filter (fun error => field error <> g) (filter (fun error => field error <> f) errs) =
  filter (fun error => field error <> f) (filter (fun error => field error <> g) errs).
Proof.
  rewrite !list_filter_filter. apply list_filter_iff. intros e. tauto.
Qed.

Lemma filter_field_twice (f : string) (errs : list ValidationError) :
  filter (fun error => field error <> f) (filter (fun error => field error <> f) errs) =
  filter (fun error => field error <> f) errs.
Proof.
  rewrite list_filter_filter. apply list_filter_iff. intros e. tauto.
Qed.

(** X3.  Keystrokes compose as writes to a record: of two keystrokes in the
    same field the last one stands, and keystrokes in different fields can
    be swapped; in both cases the whole state (form, displayed errors,
    store) is the same. *)
Theorem keystrokes_compose (env : Env) (w : World) (f g v1 v2 : string) :
  final (change env f v2 (final (change env f v1 w))) = final (change env f v2 w) /\
  (f <> g ->
   final (change env g v2 (final (change env f v1 w))) =
   final (change env f v1 (final (change env g v2 w)))).
Proof.
  rewrite !change_final. cbn [formData validationErrors store ticks]. split.
  - rewrite insert_insert_eq, filter_field_twice. reflexivity.
  - intros Hfg. rewrite insert_insert_ne by congruence.
    rewrite filter_field_comm. reflexivity.
Qed.

Lemma keystrokes_compose_witness :
  let env := Sample.env Sample.accepted Sample.sent in
  "email" <> "name" /\
  final (change env "name" "Ann" (final (change env "email" "a@b.com" Sample.flagged))) =
  final (change env "email" "a@b.com" (final (change env "name" "Ann" Sample.flagged))).
Proof.
  intros env.
  assert (Hne : "email" <> "name") by discriminate.
  split; [exact Hne|].
  destruct (keystrokes_compose env Sample.flagged "email" "name" "a@b.com" "Ann")
    as (_ & Hswap).
  exact (Hswap Hne).
Defined.

Lemma truthy_Some (o : option string) :
  truthy o = true <-> exists m, o = Some m /\ m <> "".
Proof.
  destruct o as [[|a m]|]; cbn; split; try discriminate.
  - intros (m & [= <-] & Hm). destruct Hm. reflexivity.
  - intros _. eexists. split; [reflexivity|discriminate].
  - reflexivity.
  - intros (m & H & _). discriminate.
Qed.

(** X4.  After a submit that validation blocks, every block still shows the
    value entered; a block has the red border exactly when the first error
    the validator returned for its field has a non-empty message, and then
    the paragraph shows that message.  (An error whose message is empty
    blocks the submission and shows nothing.) *)
Theorem invalid_submit_feedback
    (validateLeadForm : gmap string string -> list ValidationError)
    (env : Env) (w : World) (fld : string) :
  validateLeadForm (formData w) <> [] ->
  let v := fieldView (final (submit validateLeadForm env w)) fld in
  shown_value v = prop (formData w) fld /\
  (highlighted v = true <->
   exists pre e post,
     validateLeadForm (formData w) = pre ++ e :: post /\
     (forall e', e' ∈ pre -> field e' <> fld) /\
     field e = fld /\ message e <> "") /\
  (highlighted v = true ->
   error_text v = getFieldError (validateLeadForm (formData w)) fld) /\
  (highlighted v = false -> error_text v = None).
Proof.
  intros Hne v. subst v. rewrite (submit_invalid _ _ _ Hne). unfold fieldView.
  cbn [final formData validationErrors with_validationErrors
       shown_value highlighted error_text].
  split; [reflexivity|]. split; [|split].
  - rewrite truthy_Some. split.
    + intros (m & Hm & Hnonempty). apply getFieldError_Some in Hm
        as (pre & e & post & Heq & Hpre & Hf & <-).
      exists pre, e, post. auto.
    + intros (pre & e & post & Heq & Hpre & Hf & Hm).
      exists (message e). split; [|exact Hm].
      apply getFieldError_Some. exists pre, e, post. auto.
  - intros ->. reflexivity.
  - intros ->. reflexivity.
Qed.

Lemma invalid_submit_feedback_witness :
  let V := Validation.validateLeadForm in
  let env := Sample.env Sample.accepted Sample.sent in
  let w := Sample.world Sample.noEmail in
  V (formData w) <> [] /\
  fieldView (final (submit V env w)) "email" =
    {| shown_value := "ann"; highlighted := true;
       error_text := Some "Please enter a valid email address" |} /\
  fieldView (final (submit V env w)) "name" =
    {| shown_value := "Ann"; highlighted := false; error_text := None |}.
Proof.
  intros V env w.
  assert (Hne : V (formData w) <> []) by (vm_compute; discriminate).
  split; [exact Hne|].
  destruct (invalid_submit_feedback V env w "email" Hne) as (Hval & _ & _ & _).
  split; vm_compute; reflexivity.
Defined.

(** ** More on a run of [handleSubmit] *)

(** X5.  The blocking dialog appears in exactly one case: validation passed
    and the insert returned an error value.  A blocked submit, an insert
    that throws and a failed notification show no dialog. *)
Theorem alert_iff_insert_refused
    (validateLeadForm : gmap string string -> list ValidationError)
    (env : Env) (w : World) :
  existsb is_alert (events (submit validateLeadForm env w)) = true <->
  validateLeadForm (formData w) = [] /\
  exists r dbError, insertAnswer env w = Fulfilled r /\ error r = Some dbError.
Proof.
  destruct (validateLeadForm (formData w)) as [|e0 errs] eqn:Hv.
  - destruct (insertAnswer env w) as [r|e] eqn:Hdb.
    + destruct (error r) as [dbError|] eqn:Herr.
      * rewrite (submit_insert_error _ _ _ _ _ Hv Hdb Herr). cbn.
        split; [|reflexivity]. intros _. split; [reflexivity|]. eauto.
      * rewrite (submit_insert_ok _ _ _ _ Hv Hdb Herr).
        assert (Hquiet : is_alert (notifyLog (invokeAnswer env w)) = false).
        { destruct (invokeAnswer env w) as [r'|e]; cbn;
            [destruct (fn_error r')|]; reflexivity. }
        cbn. rewrite Hquiet. cbn. split; [discriminate|].
        intros (_ & r' & dbError & [= <-] & Herr'). congruence.
    + rewrite (submit_insert_rejected _ _ _ _ Hv Hdb). cbn.
      split; [discriminate|]. intros (_ & r & dbError & Hr & _). discriminate.
  - rewrite submit_invalid by (rewrite Hv; discriminate). cbn.
    split; [discriminate|]. intros [Hnil _]. discriminate.
Qed.

(** X6.  Retry works because a failed insert leaves the form alone: when a
    run ends at a refused or thrown insert and the next click follows with
    nothing typed in between, the second run sends the same name, email and
    industry with a fresh timestamp and, once accepted, commits them. *)
Theorem retry_after_failed_insert
    (validateLeadForm : gmap string string -> list ValidationError)
    (env1 env2 : Env) (w : World) (r2 : DbResponse) :
  validateLeadForm (formData w) = [] ->
  (forall r, insertAnswer env1 w = Fulfilled r -> error r <> None) ->
  let o1 := submit validateLeadForm env1 w in
  insertAnswer env2 (final o1) = Fulfilled r2 ->
  error r2 = None ->
  let o2 := submit validateLeadForm env2 (final o1) in
  insertCalls (events o2) =
    [("leads", [insertRow (formData w) (clock env2 (S (ticks w)))])] /\
  sessionLeads (store (final o2)) =
    sessionLeads (store w) ++ [leadOf (formData w) (clock env2 (S (S (ticks w))))] /\
  submitted (store (final o2)) = true /\
  formData (final o2) = emptyForm.
Proof.
  intros Hv Hfail o1.
  assert (Ho1 : final o1 = tick (with_validationErrors [] w)).
  { subst o1. destruct (insertAnswer env1 w) as [r|e] eqn:Hdb.
    - destruct (error r) as [dbError|] eqn:Herr.
      + rewrite (submit_insert_error _ _ _ _ _ Hv Hdb Herr). reflexivity.
      + destruct (Hfail r eq_refl Herr).
    - rewrite (submit_insert_rejected _ _ _ _ Hv Hdb). reflexivity. }
  rewrite Ho1. intros Hdb2 Herr2 o2. subst o2.
  assert (Hv2 : validateLeadForm (formData (tick (with_validationErrors [] w))) = [])
    by exact Hv.
  rewrite (submit_insert_ok _ _ _ _ Hv2 Hdb2 Herr2). cbn.
  repeat split.
  unfold insertCalls. cbn.
  destruct (invokeAnswer env2 _) as [r'|e]; cbn; [destruct (fn_error r')|];
    reflexivity.
Qed.

Lemma retry_after_failed_insert_witness :
  let V := Validation.validateLeadForm in
  let env1 := Sample.env Sample.refused Sample.sent in
  let env2 := Sample.env Sample.accepted Sample.sent in
  let w := Sample.world Sample.ann in
  V (formData w) = [] /\
  insertCalls (events (submit V env2 (final (submit V env1 w)))) =
    [("leads", [[("name", "Ann"); ("email", "a@b.com"); ("industry", "technology");
                 ("submitted_at", "2025-07-10T13:51:09.250Z")]])] /\
  submitted (store (final (submit V env2 (final (submit V env1 w))))) = true.
Proof.
  intros V env1 env2 w.
  assert (Hv : V (formData w) = []) by (vm_compute; reflexivity).
  assert (Hfail : forall r, insertAnswer env1 w = Fulfilled r -> error r <> None).
  { intros r [= <-]. discriminate. }
  split; [exact Hv|].
  destruct (retry_after_failed_insert V env1 env2 w _ Hv Hfail eq_refl eq_refl)
    as (Hcalls & _ & Hflag & _).
  split; [rewrite Hcalls; vm_compute; reflexivity|exact Hflag].
Defined.

(** X7.  Clicking submit again on a form that validation blocks changes
    nothing more: the second run ends in the same state as the first, with
    the same trace and still without a call. *)
Theorem invalid_submit_idempotent
    (validateLeadForm : gmap string string -> list ValidationError)
    (env env' : Env) (w : World) :
  validateLeadForm (formData w) <> [] ->
  submit validateLeadForm env' (final (submit validateLeadForm env w)) =
    submit validateLeadForm env w /\
  events (submit validateLeadForm env w) = [EvPreventDefault].
Proof.
  intros Hne. rewrite (submit_invalid _ env w Hne). cbn [final events].
  split; [|reflexivity].
  rewrite submit_invalid by exact Hne. reflexivity.
Qed.

Lemma invalid_submit_idempotent_witness :
  let V := Validation.validateLeadForm in
  let env := Sample.env Sample.accepted Sample.sent in
  let w := Sample.world Sample.noEmail in
  V (formData w) <> [] /\
  submit V env (final (submit V env w)) = submit V env w.
Proof.
  intros V env w.
  assert (Hne : V (formData w) <> []) by (vm_compute; discriminate).
  split; [exact Hne|].
  exact (proj1 (invalid_submit_idempotent V env env w Hne)).
Defined.

(** ** [handleSubmit] in the event loop, segment by segment *)

Section Segments.

Import Loop.

Variable validateLeadForm : gmap string string -> list ValidationError.
Variable clk : nat -> string.

(** The first segment of a valid submit ends at the insert; what follows is
    an [insert_continuation]. *)
Lemma handleSubmit_segments (fd : gmap string string) :
  validateLeadForm fd = [] ->
  exists K,
    (forall live w,
       advance clk live (handleSubmit validateLeadForm fd) w =
         (Awaiting (Insert "leads" [insertRow fd (clk (ticks w))]) K,
          tick (if live then with_validationErrors [] w else w),
          [EvPreventDefault; EvInsert "leads" [insertRow fd (clk (ticks w))]])) /\
    insert_continuation clk fd K.
Proof.
  intros Hv. unfold handleSubmit. rewrite Hv. cbn.
  eexists. split.
  - intros live w. destruct live; reflexivity.
  - split; [|split].
    + intros live w e. reflexivity.
    + intros live w r dbError Herr. cbn. rewrite Herr. reflexivity.
    + intros r Herr. cbn. rewrite Herr. cbn. eexists. split.
      * intros live w. reflexivity.
      * intros live w [r'|e]; cbn; [destruct (fn_error r')|];
          destruct live; reflexivity.
Qed.

Lemma step_submit_valid (s : State) (K : Settled DbResponse -> Proc unit) :
  (forall live w,
     advance clk live (handleSubmit validateLeadForm (formData (world s))) w =
       (Awaiting (Insert "leads" [insertRow (formData (world s)) (clk (ticks w))]) K,
        tick (if live then with_validationErrors [] w else w),
        [EvPreventDefault;
         EvInsert "leads" [insertRow (formData (world s)) (clk (ticks w))]])) ->
  step validateLeadForm clk Submit s =
    Some {| world := tick (with_validationErrors [] (world s));
            instance := instance s;
            pending := pending s ++
              [WaitInsert (instance s) "leads"
                 [insertRow (formData (world s)) (clk (ticks (world s)))] K];
            history := history s ++
              [EvPreventDefault;
               EvInsert "leads"
                 [insertRow (formData (world s)) (clk (ticks (world s)))]] |}.
Proof.
  intros HK. unfold step, schedule. rewrite HK.
  rewrite bool_decide_eq_true_2 by reflexivity. reflexivity.
Qed.


Lemma step_settle_insert (s : State) (i owner : nat) (table : string)
    (rows : list (list (string * string))) (K : Settled DbResponse -> Proc unit)
    (r : Settled DbResponse) (st : Paused unit) (evs : list Event) :
  pending s !! i = Some (WaitInsert owner table rows K) ->
  (forall live w, advance clk live (K r) w = (st, w, evs)) ->
  step validateLeadForm clk (SettleInsert i r) s =
    Some {| world := world s;
            instance := instance s;
            pending := delete i (pending s) ++ park owner st;
            history := history s ++ EvInsertSettled table rows r :: evs |}.
Proof.
  intros Hi HK. unfold step, schedule. rewrite Hi, HK. reflexivity.
Qed.

Lemma step_settle_invoke (s : State) (i owner : nat) (fname : string)
    (body : list (string * string)) (K' : Settled FnResponse -> Proc unit)
    (r' : Settled FnResponse) (fd : gmap string string) :
  pending s !! i = Some (WaitInvoke owner fname body K') ->
  (forall live w,
     advance clk live (K' r') w =
       (Finished (inl tt), commitOn clk live fd w, [notifyLog r'])) ->
  step validateLeadForm clk (SettleInvoke i r') s =
    Some {| world := commitOn clk (bool_decide (owner = instance s)) fd (world s);
            instance := instance s;
            pending := delete i (pending s);
            history := history s ++ [EvInvokeSettled fname body r'; notifyLog r'] |}.
Proof.
  intros Hi HK. unfold step, schedule. rewrite Hi, HK. cbn.
  rewrite app_nil_r. reflexivity.
Qed.

End Segments.

Lemma insertCalls_app (evs evs' : list Event) :
  insertCalls (evs ++ evs') = insertCalls evs ++ insertCalls evs'.
Proof. apply omap_app. Qed.

Lemma insertCalls_notified (fname : string) (body : list (string * string))
    (r : Settled FnResponse) :
  insertCalls [EvInvokeSettled fname body r; notifyLog r] = [].
Proof. destruct r as [r'|e]; cbn; [destruct (fn_error r')|]; reflexivity. Qed.

(** X8.  Nothing stops a second click while the first insert is in flight:
    both clicks send an insert with the same name, email and industry, and
    when both are accepted and their notifications settle, the store holds
    the lead twice. *)
Theorem double_click_stores_twice
    (validateLeadForm : gmap string string -> list ValidationError)
    (clk : nat -> string) (s : Loop.State) (r1 r2 : DbResponse)
    (f1 f2 : Settled FnResponse) :
  let fd := formData (Loop.world s) in
  let n := length (Loop.pending s) in
  let t := ticks (Loop.world s) in
  validateLeadForm fd = [] ->
  error r1 = None ->
  error r2 = None ->
  exists s',
    Loop.steps validateLeadForm clk
      [Loop.Submit; Loop.Submit;
       Loop.SettleInsert n (Fulfilled r1); Loop.SettleInsert n (Fulfilled r2);
       Loop.SettleInvoke n f1; Loop.SettleInvoke n f2] s = Some s' /\
    insertCalls (Loop.history s') =
      insertCalls (Loop.history s) ++
        [("leads", [insertRow fd (clk t)]); ("leads", [insertRow fd (clk (S t))])] /\
    sessionLeads (store (Loop.world s')) =
      sessionLeads (store (Loop.world s)) ++
        [leadOf fd (clk (S (S t))); leadOf fd (clk (S (S (S t))))] /\
    Loop.pending s' = Loop.pending s.
Proof.
  intros fd n t Hv Herr1 Herr2. subst n.
  destruct (handleSubmit_segments validateLeadForm clk fd Hv)
    as (K & Hstart & _ & _ & Hacc).
  destruct (Hacc r1 Herr1) as (K1 & Hinvoke1 & Hcommit1).
  destruct (Hacc r2 Herr2) as (K2 & Hinvoke2 & Hcommit2).
  cbn [Loop.steps].
  rewrite (step_submit_valid validateLeadForm clk s K Hstart).
  match goal with |- context [Loop.step _ _ Loop.Submit ?s1] =>
    rewrite (step_submit_valid validateLeadForm clk s1 K Hstart) end.
  cbn [Loop.world Loop.instance Loop.pending Loop.history ticks tick
       with_validationErrors formData].
  rewrite <- !app_assoc. cbn [app].
  match goal with |- context [Loop.step _ _ (Loop.SettleInsert _ _) ?s2] =>
    rewrite (step_settle_insert validateLeadForm clk s2 _ _ _ _ _ _ _ _
               (list_lookup_middle _ _ _ _ eq_refl) (Hinvoke1)) end.
  cbn [Loop.world Loop.instance Loop.pending Loop.history Loop.park Loop.suspend].
  rewrite delete_middle. rewrite <- !app_assoc. cbn [app].
  match goal with |- context [Loop.step _ _ (Loop.SettleInsert _ _) ?s3] =>
    rewrite (step_settle_insert validateLeadForm clk s3 _ _ _ _ _ _ _ _
               (list_lookup_middle _ _ _ _ eq_refl) (Hinvoke2)) end.
  cbn [Loop.world Loop.instance Loop.pending Loop.history Loop.park Loop.suspend].
  rewrite delete_middle. rewrite <- !app_assoc. cbn [app].
  match goal with |- context [Loop.step _ _ (Loop.SettleInvoke _ _) ?s4] =>
    rewrite (step_settle_invoke validateLeadForm clk s4 _ _ _ _ _ _ fd
               (list_lookup_middle _ _ _ _ eq_refl) (fun live w => Hcommit1 live w f1)) end.
  cbn [Loop.world Loop.instance Loop.pending Loop.history].
  rewrite delete_middle. cbn [app].
  match goal with |- context [Loop.step _ _ (Loop.SettleInvoke _ _) ?s5] =>
    rewrite (step_settle_invoke validateLeadForm clk s5 _ _ _ _ _ _ fd
               (list_lookup_middle _ _ _ _ eq_refl) (fun live w => Hcommit2 live w f2)) end.
  cbn [Loop.world Loop.instance Loop.pending Loop.history].
  rewrite delete_middle, app_nil_r.
  eexists. split; [reflexivity|].
  cbn [Loop.world Loop.history Loop.pending].
  split; [|split; [|reflexivity]].
  - rewrite !insertCalls_app, !insertCalls_notified, !app_nil_r. reflexivity.
  - cbn. rewrite <- app_assoc. reflexivity.
Qed.

Lemma double_click_stores_twice_witness :
  exists s',
    Loop.steps Validation.validateLeadForm Sample.time
      [Loop.Submit; Loop.Submit;
       Loop.SettleInsert 0 Sample.accepted; Loop.SettleInsert 0 Sample.accepted;
       Loop.SettleInvoke 0 Sample.sent; Loop.SettleInvoke 0 Sample.bounced]
      {| Loop.world := Sample.world Sample.ann; Loop.instance := 1;
         Loop.pending := []; Loop.history := [] |} = Some s' /\
    length (sessionLeads (store (Loop.world s'))) = 2.
Proof.
  destruct (double_click_stores_twice Validation.validateLeadForm Sample.time
              {| Loop.world := Sample.world Sample.ann; Loop.instance := 1;
                 Loop.pending := []; Loop.history := [] |}
              {| data := Some [insertRow Sample.ann (Sample.time 0)]; error := None |}
              {| data := Some [insertRow Sample.ann (Sample.time 0)]; error := None |}
              Sample.sent Sample.bounced)
    as (s' & Hsteps & _ & Hleads & _).
  - vm_compute. reflexivity.
  - reflexivity.
  - reflexivity.
  - exists s'. split; [exact Hsteps|]. rewrite Hleads. reflexivity.
Defined.




(** ** Counting calls and leads in the event loop *)

Section Ledger_facts.

Import Loop Ledger.

Variable validateLeadForm : gmap string string -> list ValidationError.
Variable clk : nat -> string.

Lemma invokeCalls_app (evs evs' : list Event) :
  invokeCalls (evs ++ evs') = invokeCalls evs ++ invokeCalls evs'.
Proof. apply omap_app. Qed.

Lemma acceptedInserts_app (evs evs' : list Event) :
  acceptedInserts (evs ++ evs') = acceptedInserts evs ++ acceptedInserts evs'.
Proof. apply omap_app. Qed.

Lemma calls_nil :
  insertCalls [] = [] /\ invokeCalls [] = [] /\ acceptedInserts [] = [].
Proof. repeat split. Qed.

Lemma calls_settled_invoke (fname : string) (body : list (string * string))
    (r : Settled FnResponse) :
  insertCalls [EvInvokeSettled fname body r] = [] /\
  invokeCalls [EvInvokeSettled fname body r] = [] /\
  acceptedInserts [EvInvokeSettled fname body r] = [].
Proof. repeat split. Qed.

Lemma calls_settled_insert (table : string) (rows : list (list (string * string)))
    (r : Settled DbResponse) :
  insertCalls [EvInsertSettled table rows r] = [] /\
  invokeCalls [EvInsertSettled table rows r] = [] /\
  length (acceptedInserts [EvInsertSettled table rows r]) =
    credit (Insert table rows) r.
Proof. repeat split. cbn. destruct (accepted r); reflexivity. Qed.

Lemma sum_list_delete {A : Type} (f : A -> nat) (l : list A) (i : nat) (x : A) :
  l !! i = Some x -> sum_list_with f (delete i l) + f x = sum_list_with f l.
Proof.
  revert i. induction l as [|y l IH]; intros [|i] Hi; try discriminate.
  - injection Hi as ->. cbn. apply Nat.add_comm.
  - change (delete (S i) (y :: l)) with (y :: delete i l).
    cbn [sum_list_with]. rewrite <- (IH i Hi). lia.
Qed.

(** A synchronous operation issues and settles no call, and appends a lead
    exactly when it is [addLead]. *)
Lemma exec_ledger (live : bool) {X : Type} (op : Sync X) (w : World) :
  let '(_, w', evs) := exec clk live op w in
  insertCalls evs = [] /\ invokeCalls evs = [] /\ acceptedInserts evs = [] /\
  length (sessionLeads (store w')) =
    length (sessionLeads (store w)) + (if appends op then 1 else 0).
Proof.
  destruct op; cbn; try destruct live; cbn; repeat split;
    rewrite ?length_app; cbn; lia.
Qed.

Lemma resetOnMount_ledger : ledger 0 0 0 resetOnMount.
Proof. cbn. intros []. split; reflexivity. Qed.

Lemma handleInputChange_ledger (errs : list ValidationError) (fld value : string) :
  ledger 0 0 0 (handleInputChange errs fld value).
Proof.
  unfold handleInputChange. cbn. intros [].
  destruct (existsb _ errs); cbn; [intros []|]; split; reflexivity.
Qed.

Lemma handleSubmit_ledger (fd : gmap string string) :
  ledger 1 0 0 (handleSubmit validateLeadForm fd).
Proof.
  unfold handleSubmit. cbn. intros [] [].
  destruct (validateLeadForm fd) as [|e0 errs]; cbn; [|split; reflexivity].
  intros now. split; [reflexivity|]. exists 0. split; [reflexivity|].
  intros [r|e]; cbn; [|intros []; split; reflexivity].
  destruct (error r) as [dbError|]; cbn; [intros [] []; split; reflexivity|].
  intros []. split; [reflexivity|]. exists 0. split; [reflexivity|].
  intros [r'|e]; cbn; [destruct (fn_error r'); cbn|];
    (intros [] now'; exists 0; split; [reflexivity|];
     intros [] [] []; split; reflexivity).
Qed.

Lemma owes_suspend (owner : nat) {X : Type} (c : Call X)
    (k : Settled X -> Proc unit) (b dl : nat) :
  (forall r, ledger b (dl + credit c r) (credit c r) (k r)) ->
  owes (b, dl) (suspend owner c k).
Proof.
  destruct c as [table rows|fname body]; cbn; intros Hk r.
  - apply Hk.
  - specialize (Hk r). cbn in Hk. rewrite Nat.add_0_r in Hk. exact Hk.
Qed.

Lemma advance_ledger (live : bool) {A : Type} (p : Proc A) :
  forall (b dl di : nat) (w : World),
  ledger b dl di p ->
  let '(st, w', evs) := advance clk live p w in
  acceptedInserts evs = [] /\
  length (invokeCalls evs) = di /\
  exists al,
    length (sessionLeads (store w')) = length (sessionLeads (store w)) + al /\
    match st with
    | Finished _ => dl = al /\ length (insertCalls evs) <= b
    | Awaiting c k =>
        exists b' dl',
          dl = al + dl' /\
          length (insertCalls evs) + b' <= b /\
          forall r, ledger b' (dl' + credit c r) (credit c r) (k r)
    end.
Proof.
  induction p as [a|e|X op k IH|X c k IH]; intros b dl di w Hp; cbn in Hp |- *.
  - destruct Hp as [-> ->]. repeat split. exists 0. repeat split; lia.
  - destruct Hp as [-> ->]. repeat split. exists 0. repeat split; lia.
  - pose proof (exec_ledger live op w) as Hop.
    destruct (exec clk live op w) as [[x w'] evs].
    destruct Hop as (Hins & Hinv & Hacc & Hleads).
    assert (Hrest : exists dl0, dl = (if appends op then 1 else 0) + dl0 /\
                                ledger b dl0 di (k x)).
    { unfold appends. destruct (added op).
      - destruct Hp as (dl' & -> & Hk). exists dl'. split; [reflexivity|apply Hk].
      - exists dl. split; [reflexivity|apply Hp]. }
    destruct Hrest as (dl0 & Hdl & Hk).
    specialize (IH x b dl0 di w' Hk).
    destruct (advance clk live (k x) w') as [[st w''] evs'].
    destruct IH as (Hacc' & Hinv' & al & Hleads' & Hst).
    rewrite acceptedInserts_app, invokeCalls_app, Hacc, Hinv, Hacc'.
    split; [reflexivity|]. split; [exact Hinv'|].
    exists ((if appends op then 1 else 0) + al). split; [lia|].
    destruct st as [res|Y c' k'].
    + destruct Hst as [Hal Hb]. rewrite insertCalls_app, Hins. split; [lia|exact Hb].
    + destruct Hst as (b' & dl' & Hal & Hb & Hk').
      exists b', dl'. rewrite insertCalls_app, Hins. repeat split; [lia|exact Hb|exact Hk'].
  - destruct Hp as (Hdi & b' & Hb & Hk).
    split; [destruct c; reflexivity|].
    split; [rewrite Hdi; destruct c; reflexivity|].
    exists 0. split; [lia|]. exists b', dl. split; [reflexivity|]. split; [|exact Hk].
    rewrite Hb. destruct c; cbn; lia.
Qed.

(** Starting or resuming a handler keeps the accounts. *)
Lemma schedule_ledger (owner : nat) (p : Proc unit) (before : list Event)
    (rest : list Suspended) (s : State) (debts : list (nat * nat)) (b dl di : nat) :
  ledger b dl di p ->
  Forall2 owes debts rest ->
  let s' := schedule clk owner p before rest s in
  acceptedInserts (history s') = acceptedInserts (history s) ++ acceptedInserts before /\
  length (invokeCalls (history s')) =
    length (invokeCalls (history s)) + length (invokeCalls before) + di /\
  exists debts',
    Forall2 owes debts' (pending s') /\
    length (sessionLeads (store (world s'))) + sum_list_with snd debts' =
      length (sessionLeads (store (world s))) + dl + sum_list_with snd debts /\
    length (insertCalls (history s')) + sum_list_with fst debts' <=
      length (insertCalls (history s)) + length (insertCalls before) + b +
      sum_list_with fst debts.
Proof.
  intros Hp Hrest. unfold schedule.
  pose proof (advance_ledger (bool_decide (owner = instance s)) p b dl di (world s) Hp)
    as Hadv.
  destruct (advance clk _ p (world s)) as [[st w'] evs].
  destruct Hadv as (Hacc & Hinv & al & Hleads & Hst). cbn.
  rewrite !acceptedInserts_app, !invokeCalls_app, !insertCalls_app, !length_app, Hacc.
  rewrite app_nil_r. split; [reflexivity|]. split; [lia|].
  destruct st as [res|Y c k].
  - destruct Hst as [-> Hb]. exists debts. cbn. rewrite app_nil_r.
    split; [exact Hrest|]. split; lia.
  - destruct Hst as (b' & dl' & -> & Hb & Hk).
    exists (debts ++ [(b', dl')]). split.
    + apply Forall2_app; [exact Hrest|]. constructor; [|constructor].
      apply owes_suspend, Hk.
    + rewrite !sum_list_with_app. cbn. split; lia.
Qed.

Lemma step_books (n : nat) (a : Action) (s s' : State) :
  books n s ->
  step validateLeadForm clk a s = Some s' ->
  books (n + (if is_submit a then 1 else 0)) s'.
Proof.
  intros (Hinv & debts & Hdebts & Hleads & Hins) Hstep.
  destruct a as [|fld value| |i r|i r]; unfold step in Hstep; cbn [is_submit].
  - injection Hstep as <-.
    destruct (schedule_ledger (S (instance s)) resetOnMount []
                (pending s) (remount s) debts 0 0 0
                resetOnMount_ledger Hdebts) as (Hacc' & Hinv' & debts' & Hd' & Hl' & Hi').
    change (history (remount s)) with (history s) in Hacc', Hinv', Hi'.
    change (store (world (remount s))) with (store (world s)) in Hl'.
    destruct calls_nil as (Hn1 & Hn2 & Hn3).
    rewrite Hn3 in Hacc'. rewrite Hn2 in Hinv'. rewrite Hn1 in Hi'.
    cbn [length] in Hinv', Hi'.
    split; [rewrite Hinv', Hacc', app_nil_r; lia|].
    exists debts'. split; [exact Hd'|]. rewrite Hacc', app_nil_r. split; lia.
  - injection Hstep as <-.
    destruct (schedule_ledger (instance s)
                (handleInputChange (validationErrors (world s)) fld value) []
                (pending s) s debts 0 0 0
                (handleInputChange_ledger _ _ _) Hdebts)
      as (Hacc' & Hinv' & debts' & Hd' & Hl' & Hi').
    destruct calls_nil as (Hn1 & Hn2 & Hn3).
    rewrite Hn3 in Hacc'. rewrite Hn2 in Hinv'. rewrite Hn1 in Hi'.
    cbn [length] in Hinv', Hi'.
    split; [rewrite Hinv', Hacc', app_nil_r; lia|].
    exists debts'. split; [exact Hd'|]. rewrite Hacc', app_nil_r. split; lia.
  - injection Hstep as <-.
    destruct (schedule_ledger (instance s)
                (handleSubmit validateLeadForm (formData (world s))) []
                (pending s) s debts 1 0 0
                (handleSubmit_ledger _) Hdebts)
      as (Hacc' & Hinv' & debts' & Hd' & Hl' & Hi').
    destruct calls_nil as (Hn1 & Hn2 & Hn3).
    rewrite Hn3 in Hacc'. rewrite Hn2 in Hinv'. rewrite Hn1 in Hi'.
    cbn [length] in Hinv', Hi'.
    split; [rewrite Hinv', Hacc', app_nil_r; lia|].
    exists debts'. split; [exact Hd'|]. rewrite Hacc', app_nil_r. split; lia.
  - destruct (pending s !! i) as [[owner t rows k|owner f body k]|] eqn:Hi;
      [|discriminate..].
    injection Hstep as <-.
    destruct (Forall2_lookup_r _ _ _ _ _ Hdebts Hi) as ([b dl] & Hd & Howes).
    cbn in Howes.
    destruct (schedule_ledger owner (k r) [EvInsertSettled t rows r]
                (delete i (pending s)) s (delete i debts) b
                (dl + credit (Insert t rows) r) (credit (Insert t rows) r)
                (Howes r) (Forall2_delete _ _ _ i Hdebts))
      as (Hacc' & Hinv' & debts' & Hd' & Hl' & Hi').
    pose proof (sum_list_delete snd debts i _ Hd) as Hsnd.
    pose proof (sum_list_delete fst debts i _ Hd) as Hfst.
    cbn [fst snd] in Hsnd, Hfst.
    destruct (calls_settled_insert t rows r) as (Hn1 & Hn2 & Hcredit).
    rewrite Hn2 in Hinv'. rewrite Hn1 in Hi'. cbn [length] in Hinv', Hi'.
    split; [rewrite Hinv', Hacc', length_app, Hcredit; lia|].
    exists debts'. split; [exact Hd'|].
    rewrite Hacc', length_app, Hcredit. split; lia.
  - destruct (pending s !! i) as [[owner t rows k|owner f body k]|] eqn:Hi;
      [discriminate| |discriminate].
    injection Hstep as <-.
    destruct (Forall2_lookup_r _ _ _ _ _ Hdebts Hi) as ([b dl] & Hd & Howes).
    cbn in Howes.
    destruct (schedule_ledger owner (k r) [EvInvokeSettled f body r]
                (delete i (pending s)) s (delete i debts) b dl 0
                (Howes r) (Forall2_delete _ _ _ i Hdebts))
      as (Hacc' & Hinv' & debts' & Hd' & Hl' & Hi').
    pose proof (sum_list_delete snd debts i _ Hd) as Hsnd.
    pose proof (sum_list_delete fst debts i _ Hd) as Hfst.
    cbn [fst snd] in Hsnd, Hfst.
    destruct (calls_settled_invoke f body r) as (Hn1 & Hn2 & Hn3).
    rewrite Hn3 in Hacc'. rewrite Hn2 in Hinv'. rewrite Hn1 in Hi'.
    cbn [length] in Hinv', Hi'.
    split; [rewrite Hinv', Hacc', app_nil_r; lia|].
    exists debts'. split; [exact Hd'|].
    rewrite Hacc', app_nil_r. split; lia.
Qed.

Lemma steps_books (acts : list Action) :
  forall (n : nat) (s s' : State),
  books n s ->
  steps validateLeadForm clk acts s = Some s' ->
  books (n + clicks acts) s'.
Proof.
  induction acts as [|a acts IH]; intros n s s' Hbooks Hsteps; cbn in Hsteps.
  - injection Hsteps as <-. unfold clicks. cbn. rewrite Nat.add_0_r. exact Hbooks.
  - destruct (step validateLeadForm clk a s) as [s1|] eqn:Hstep; [|discriminate].
    pose proof (IH _ _ _ (step_books _ _ _ _ Hbooks Hstep) Hsteps) as H.
    replace (n + clicks (a :: acts))
      with (n + (if is_submit a then 1 else 0) + clicks acts); [exact H|].
    unfold clicks. cbn. destruct (is_submit a); cbn; lia.
Qed.

Lemma init_books : books 0 init.
Proof.
  split; [reflexivity|]. exists []. split; [constructor|]. split; cbn; lia.
Qed.

End Ledger_facts.

(** X10.  In every state the event loop reaches, the notification gateway
    has been called once for each insert the persistence gateway accepted,
    and never otherwise; the store holds at most one lead per accepted
    insert, and exactly one per accepted insert once no handler is
    suspended. *)
Theorem accepted_inserts_notified_and_stored
    (validateLeadForm : gmap string string -> list ValidationError)
    (clk : nat -> string) (acts : list Loop.Action) (s : Loop.State) :
  Loop.steps validateLeadForm clk acts Loop.init = Some s ->
  length (invokeCalls (Loop.history s)) =
    length (Ledger.acceptedInserts (Loop.history s)) /\
  length (sessionLeads (store (Loop.world s))) <=
    length (Ledger.acceptedInserts (Loop.history s)) /\
  (Loop.pending s = [] ->
   length (sessionLeads (store (Loop.world s))) =
     length (Ledger.acceptedInserts (Loop.history s))).
Proof.
  intros Hsteps.
  destruct (steps_books validateLeadForm clk acts 0 _ _ init_books Hsteps)
    as (Hinv & debts & Hdebts & Hleads & _).
  split; [exact Hinv|]. split; [lia|].
  intros Hidle. rewrite Hidle in Hdebts.
  apply Forall2_nil_inv_r in Hdebts as ->. cbn in Hleads. lia.
Qed.

Lemma accepted_inserts_notified_and_stored_witness :
  exists s,
    Loop.steps Validation.validateLeadForm Sample.time Sample.session Loop.init = Some s /\
    length (invokeCalls (Loop.history s)) = 1 /\
    length (sessionLeads (store (Loop.world s))) = 1.
Proof.
  destruct (Loop.steps Validation.validateLeadForm Sample.time Sample.session Loop.init)
    as [s|] eqn:Hs; [|vm_compute in Hs; discriminate].
  destruct (accepted_inserts_notified_and_stored _ _ _ _ Hs) as (Hinv & _ & Hidle).
  exists s. split; [reflexivity|].
  assert (Hacc : length (Ledger.acceptedInserts (Loop.history s)) = 1 /\
                 Loop.pending s = []).
  { vm_compute in Hs. injection Hs as <-. split; reflexivity. }
  destruct Hacc as [Hacc Hpending].
  split; [rewrite Hinv; exact Hacc|]. rewrite (Hidle Hpending). exact Hacc.
Defined.

(** X11.  In every state the event loop reaches, the persistence gateway has
    received at most one insert per submit click: nothing is retried, also
    when runs interleave. *)
Theorem inserts_at_most_clicks
    (validateLeadForm : gmap string string -> list ValidationError)
    (clk : nat -> string) (acts : list Loop.Action) (s : Loop.State) :
  Loop.steps validateLeadForm clk acts Loop.init = Some s ->
  length (insertCalls (Loop.history s)) <= Ledger.clicks acts.
Proof.
  intros Hsteps.
  destruct (steps_books validateLeadForm clk acts 0 _ _ init_books Hsteps)
    as (_ & debts & _ & _ & Hins).
  cbn in Hins. lia.
Qed.

Lemma inserts_at_most_clicks_witness :
  exists s,
    Loop.steps Validation.validateLeadForm Sample.time Sample.session Loop.init = Some s /\
    length (insertCalls (Loop.history s)) <= 1.
Proof.
  destruct (Loop.steps Validation.validateLeadForm Sample.time Sample.session Loop.init)
    as [s|] eqn:Hs; [|vm_compute in Hs; discriminate].
  exists s. split; [reflexivity|].
  exact (inserts_at_most_clicks _ _ _ _ Hs).
Defined.

(** ** What a run leaves in the trace *)

(** X12.  Every run starts by cancelling the browser's own form submission,
    and does so once, whether or not validation passes. *)
Theorem prevents_default_once
    (validateLeadForm : gmap string string -> list ValidationError)
    (env : Env) (w : World) :
  exists rest,
    events (submit validateLeadForm env w) = EvPreventDefault :: rest /\
    EvPreventDefault ∉ rest.
Proof.
  destruct (validateLeadForm (formData w)) as [|e0 errs] eqn:Hv.
  - destruct (insertAnswer env w) as [r|e] eqn:Hdb.
    + destruct (error r) as [dbError|] eqn:Herr.
      * rewrite (submit_insert_error _ _ _ _ _ Hv Hdb Herr). eexists.
        split; [reflexivity|]. rewrite !not_elem_of_cons.
        repeat split; try discriminate. apply not_elem_of_nil.
      * rewrite (submit_insert_ok _ _ _ _ Hv Hdb Herr). eexists.
        split; [reflexivity|]. rewrite !not_elem_of_cons.
        repeat split; try discriminate; [|apply not_elem_of_nil].
        destruct (invokeAnswer env w) as [r'|e]; cbn;
          [destruct (fn_error r')|]; discriminate.
    + rewrite (submit_insert_rejected _ _ _ _ Hv Hdb). eexists.
      split; [reflexivity|]. rewrite !not_elem_of_cons.
      repeat split; try discriminate. apply not_elem_of_nil.
  - rewrite submit_invalid by (rewrite Hv; discriminate). eexists.
    split; [reflexivity|]. apply not_elem_of_nil.
Qed.

(** X13.  Every failure after validation is written to the console once and
    only failures are: a run writes one [console.error] line when the insert
    is refused or throws, one when the insert is accepted and the
    notification returns an error or throws, and none when both calls
    succeed or validation blocks the submit. *)
Theorem failures_logged_once
    (validateLeadForm : gmap string string -> list ValidationError)
    (env : Env) (w : World) :
  length (consoleErrors (events (submit validateLeadForm env w))) =
    match validateLeadForm (formData w) with
    | [] =>
        if Ledger.accepted (insertAnswer env w)
        then (if notified (invokeAnswer env w) then 0 else 1)
        else 1
    | _ :: _ => 0
    end.
Proof.
  destruct (validateLeadForm (formData w)) as [|e0 errs] eqn:Hv.
  - destruct (insertAnswer env w) as [r|e] eqn:Hdb.
    + destruct (error r) as [dbError|] eqn:Herr.
      * rewrite (submit_insert_error _ _ _ _ _ Hv Hdb Herr). cbn. rewrite Herr.
        reflexivity.
      * rewrite (submit_insert_ok _ _ _ _ Hv Hdb Herr). cbn. rewrite Herr.
        destruct (invokeAnswer env w) as [r'|e]; cbn;
          [destruct (fn_error r')|]; reflexivity.
    + rewrite (submit_insert_rejected _ _ _ _ Hv Hdb). reflexivity.
  - rewrite submit_invalid by (rewrite Hv; discriminate). reflexivity.
Qed.

(** ** Validation as the gate, and what the visitor then sees *)

Lemma fieldView_error_text (w : World) (fld m : string) :
  error_text (fieldView w fld) = Some m <->
  exists pre e post,
    validationErrors w = pre ++ e :: post /\
    (forall e', e' ∈ pre -> field e' <> fld) /\
    field e = fld /\ message e = m /\ m <> "".
Proof.
  unfold fieldView. cbn [error_text]. split.
  - destruct (truthy (getFieldError (validationErrors w) fld)) eqn:Ht; [|discriminate].
    intros Hm. apply truthy_Some in Ht as (m' & Hm' & Hne).
    rewrite Hm' in Hm. injection Hm as <-.
    apply getFieldError_Some in Hm' as (pre & e & post & Heq & Hpre & Hf & Hmsg).
    exists pre, e, post. auto.
  - intros (pre & e & post & Heq & Hpre & Hf & Hmsg & Hne).
    assert (Hget : getFieldError (validationErrors w) fld = Some m).
    { apply getFieldError_Some. exists pre, e, post. auto. }
    rewrite Hget. destruct m; [destruct Hne; reflexivity|reflexivity].
Qed.

Lemma fieldView_highlighted (w : World) (fld : string) :
  highlighted (fieldView w fld) = true <-> is_Some (error_text (fieldView w fld)).
Proof.
  unfold fieldView. cbn [highlighted error_text].
  destruct (getFieldError (validationErrors w) fld) as [[|a m]|]; cbn.
  - split; [discriminate|]. intros [? Hm]. discriminate Hm.
  - split; [eauto|reflexivity].
  - split; [discriminate|]. intros [? Hm]. discriminate Hm.
Qed.

(** The first error recorded for one of the three fields, if its message is
    not empty, is on the screen: the block of its field has the red border
    and shows its message under the input. *)
Lemma first_error_rendered (w : World) (pre post : list ValidationError)
    (e : ValidationError) :
  validationErrors w = pre ++ e :: post ->
  (forall e', e' ∈ pre -> field e' <> field e) ->
  field e ∈ blocks ->
  message e <> "" ->
  (field e, {| shown_value := prop (formData w) (field e);
               highlighted := true;
               error_text := Some (message e) |}) ∈ render w.
Proof.
  intros Heq Hpre Hblock Hne. unfold render.
  apply list_elem_of_fmap. exists (field e). split; [|exact Hblock].
  f_equal. unfold fieldView.
  assert (Hget : getFieldError (validationErrors w) (field e) = Some (message e)).
  { apply getFieldError_Some. exists pre, e, post. auto. }
  rewrite Hget. destruct (message e); [destruct Hne; reflexivity|reflexivity].
Qed.

(** Every error of the validator of section 4.1 is the first one of its
    field, belongs to one of the three blocks and has a message. *)
Lemma modelled_errors_first_of_block (data : gmap string string)
    (e : ValidationError) :
  e ∈ Validation.validateLeadForm data ->
  exists pre post,
    Validation.validateLeadForm data = pre ++ e :: post /\
    (forall e', e' ∈ pre -> field e' <> field e) /\
    field e ∈ blocks /\
    message e <> "".
Proof.
  intros Hin.
  assert (Hget : getFieldError (Validation.validateLeadForm data) (field e) =
                 Some (message e) /\ field e ∈ blocks /\ message e <> "").
  { revert Hin. unfold Validation.validateLeadForm, blocks.
    destruct (Validation.blank (prop data "name")),
             (bool_decide (prop data "email" = "")),
             (Validation.email_shape (prop data "email")),
             (Validation.blank (prop data "industry")); cbn [app]; intros Hin;
      repeat match goal with
             | H : _ ∈ _ :: _ |- _ => apply elem_of_cons in H as [->|H]
             | H : _ ∈ [] |- _ => inversion H
             end;
      (split; [vm_compute; reflexivity|]);
      (split; [cbn [field]; in_list|discriminate]). }
  destruct Hget as (Hget & Hblock & Hne).
  apply getFieldError_Some in Hget as (pre & e' & post & Heq & Hpre & Hf & Hm).
  assert (e' = e) as -> by (destruct e', e; cbn in Hf, Hm; congruence).
  exists pre, post. auto.
Qed.

(** With that validator, every error of a blocked submit is on the screen. *)
Lemma modelled_errors_rendered (env : Env) (w : World) (e : ValidationError) :
  let o := submit Validation.validateLeadForm env w in
  e ∈ Validation.validateLeadForm (formData w) ->
  (field e, {| shown_value := prop (formData w) (field e);
               highlighted := true;
               error_text := Some (message e) |}) ∈ render (final o).
Proof.
  intros o Hin. subst o.
  assert (Hne : Validation.validateLeadForm (formData w) <> []).
  { intros Heq. rewrite Heq in Hin. inversion Hin. }
  rewrite (submit_invalid _ _ _ Hne). cbn [final].
  destruct (modelled_errors_first_of_block _ _ Hin) as (pre & post & Heq & Hpre & Hb & Hm).
  exact (first_error_rendered (with_validationErrors _ w) pre post e Heq Hpre Hb Hm).
Qed.

(** C4.  A submit attempt reaches a gateway exactly when the validator
    returns no error.  When it returns some, no call is issued, nothing of
    the local state changes but the error list, which becomes the list the
    validator returned, and the form shows them field by field: a block
    shows message [m] under its input exactly when the first error of the
    list for its field has the non-empty message [m], it has the red border
    exactly when it shows a message, and it still shows the value entered.
    So the first error of each of the three fields, if it has a message, is
    on the screen. *)
Theorem gateways_iff_valid
    (validateLeadForm : gmap string string -> list ValidationError)
    (env : Env) (w : World) :
  let errors := validateLeadForm (formData w) in
  let o := submit validateLeadForm env w in
  (existsb is_call (events o) = true <-> errors = []) /\
  (errors <> [] ->
     insertCalls (events o) = [] /\ invokeCalls (events o) = [] /\
     final o = with_validationErrors errors w /\
     (forall e, e ∈ errors ->
        is_Some (getFieldError (validationErrors (final o)) (field e))) /\
     (forall fld m,
        error_text (fieldView (final o) fld) = Some m <->
        exists pre e post,
          errors = pre ++ e :: post /\
          (forall e', e' ∈ pre -> field e' <> fld) /\
          field e = fld /\ message e = m /\ m <> "") /\
     (forall fld,
        highlighted (fieldView (final o) fld) = true <->
        is_Some (error_text (fieldView (final o) fld))) /\
     (forall fld, shown_value (fieldView (final o) fld) = prop (formData w) fld) /\
     (forall pre e post,
        errors = pre ++ e :: post ->
        (forall e', e' ∈ pre -> field e' <> field e) ->
        field e ∈ blocks ->
        message e <> "" ->
        (field e, {| shown_value := prop (formData w) (field e);
                     highlighted := true;
                     error_text := Some (message e) |}) ∈ render (final o))).
Proof.
  intros errors o. subst errors o. split.
  - destruct (validateLeadForm (formData w)) as [|e0 errs] eqn:Hv.
    + split; [reflexivity|intros _].
      destruct (insertAnswer env w) as [r|e] eqn:Hdb.
      * destruct (error r) as [dbError|] eqn:Herr.
        -- rewrite (submit_insert_error _ _ _ _ _ Hv Hdb Herr). reflexivity.
        -- rewrite (submit_insert_ok _ _ _ _ Hv Hdb Herr). reflexivity.
      * rewrite (submit_insert_rejected _ _ _ _ Hv Hdb). reflexivity.
    + rewrite submit_invalid by (rewrite Hv; discriminate). cbn.
      split; discriminate.
  - intros Hne. rewrite (submit_invalid _ _ _ Hne). cbn [events final].
    split; [reflexivity|]. split; [reflexivity|]. split; [reflexivity|].
    split; [apply getFieldError_shown|].
    split; [intros fld m; apply fieldView_error_text|].
    split; [intros fld; apply fieldView_highlighted|].
    split; [reflexivity|].
    intros pre e post Heq Hpre Hb Hm.
    exact (first_error_rendered (with_validationErrors _ w) pre post e Heq Hpre Hb Hm).
Qed.

Lemma gateways_iff_valid_witness :
  let V := Validation.validateLeadForm in
  let env := Sample.env Sample.accepted Sample.sent in
  let w := Sample.world Sample.noEmail in
  V (formData w) <> [] /\
  insertCalls (events (submit V env w)) = [] /\
  invokeCalls (events (submit V env w)) = [] /\
  getFieldError (validationErrors (final (submit V env w))) "email" =
    Some "Please enter a valid email address" /\
  ("email", {| shown_value := "ann"; highlighted := true;
               error_text := Some "Please enter a valid email address" |})
    ∈ render (final (submit V env w)) /\
  error_text (fieldView (final (submit V env w)) "name") = None.
Proof.
  intros V env w.
  assert (Hne : V (formData w) <> []) by (vm_compute; discriminate).
  split; [exact Hne|].
  destruct (gateways_iff_valid V env w) as (_ & Hinvalid).
  destruct (Hinvalid Hne) as (Hins & Hinv & Hfinal & _ & Htext & _ & _ & Hshown).
  split; [exact Hins|]. split; [exact Hinv|].
  split; [rewrite Hfinal; vm_compute; reflexivity|].
  split.
  - apply (Hshown [] {| field := "email";
                        message := "Please enter a valid email address" |} []).
    + vm_compute. reflexivity.
    + intros e' He'. inversion He'.
    + unfold blocks. cbn [field]. in_list.
    + discriminate.
  - destruct (error_text (fieldView (final (submit V env w)) "name")) as [m|] eqn:Hm;
      [|reflexivity].
    apply Htext in Hm as (pre & e & post & Heq & _ & Hf & _).
    assert (Hin : e ∈ V (formData w)).
    { rewrite Heq. apply elem_of_app. right. left. }
    vm_compute in Heq.
    destruct pre as [|e1 pre]; cbn in Heq.
    + injection Heq as <- _. discriminate.
    + injection Heq as _ Heq. destruct pre; discriminate.
Defined.

(** ** The stored lead and the persisted row, in time *)

(** C6, amended.  Every lead the store holds, in every state the event loop
    reaches, has the name, email and industry of a form that passed
    validation and of a row the persistence gateway accepted.  In a run that
    appends a lead, validation passed, the insert of that run was accepted,
    the row sent has the lead's name, email and industry with the first
    reading of the clock, and the lead's [submitted_at] is the second
    reading.  The second reading is taken at commit, after the notification
    call has settled: when the handler stops at the invoke, the clock has
    been read once since the click and the store is as it was; whenever the
    answer of the invoke is then handled, in whatever state of the loop, the
    lead appended carries the clock as it is read in that state. *)
Theorem stored_lead_matches_persisted_fields
    (validateLeadForm : gmap string string -> list ValidationError) :
  (forall (clk : nat -> string) (acts : list Loop.Action) (s : Loop.State) (l : Lead),
     Loop.steps validateLeadForm clk acts Loop.init = Some s ->
     l ∈ sessionLeads (store (Loop.world s)) ->
     exists fd t r,
       validateLeadForm fd = [] /\ error r = None /\
       EvInsertSettled "leads" [insertRow fd t] (Fulfilled r) ∈ Loop.history s /\
       name l = prop fd "name" /\ email l = prop fd "email" /\
       industry l = prop fd "industry") /\
  (forall (env : Env) (w : World) (l : Lead),
     let o := submit validateLeadForm env w in
     sessionLeads (store (final o)) = sessionLeads (store w) ++ [l] ->
     validateLeadForm (formData w) = [] /\
     submitted_at l = clock env (S (ticks w)) /\
     exists r,
       error r = None /\
       EvInsertSettled "leads"
         [[("name", name l); ("email", email l); ("industry", industry l);
           ("submitted_at", clock env (ticks w))]]
         (Fulfilled r) ∈ events o) /\
  (forall (clk : nat -> string) (s : Loop.State) (r : DbResponse),
     let fd := formData (Loop.world s) in
     let t := ticks (Loop.world s) in
     validateLeadForm fd = [] ->
     error r = None ->
     exists s1 h,
       Loop.steps validateLeadForm clk
         [Loop.Submit; Loop.SettleInsert (length (Loop.pending s)) (Fulfilled r)] s =
         Some s1 /\
       Loop.pending s1 = Loop.pending s ++ [h] /\
       Loop.history s1 =
         Loop.history s ++
           [EvPreventDefault;
            EvInsert "leads" [insertRow fd (clk t)];
            EvInsertSettled "leads" [insertRow fd (clk t)] (Fulfilled r);
            EvConsoleLog "Lead saved to database successfully:" (ArgData (data r));
            EvInvoke "send-confirmation" (invokeBody fd)] /\
       ticks (Loop.world s1) = S t /\
       store (Loop.world s1) = store (Loop.world s) /\
       forall (s2 : Loop.State) (i : nat) (f : Settled FnResponse),
         Loop.pending s2 !! i = Some h ->
         exists s',
           Loop.step validateLeadForm clk (Loop.SettleInvoke i f) s2 = Some s' /\
           Loop.history s' =
             Loop.history s2 ++
               [EvInvokeSettled "send-confirmation" (invokeBody fd) f; notifyLog f] /\
           sessionLeads (store (Loop.world s')) =
             sessionLeads (store (Loop.world s2)) ++
               [leadOf fd (clk (ticks (Loop.world s2)))] /\
           ticks (Loop.world s') = S (ticks (Loop.world s2))).
Proof.
  split; [|split].
  - intros clk acts s l Hsteps Hl.
    destruct (steps_invariant validateLeadForm clk acts _ _
                (init_invariant validateLeadForm) Hsteps) as (_ & _ & _ & Hleads & _).
    exact (Hleads l Hl).
  - intros env w l o Happ. subst o.
    destruct (validateLeadForm (formData w)) as [|e0 errs] eqn:Hv.
    + destruct (insertAnswer env w) as [r|e] eqn:Hdb.
      * destruct (error r) as [dbError|] eqn:Herr.
        -- rewrite (submit_insert_error _ _ _ _ _ Hv Hdb Herr) in Happ.
           destruct (app_snoc_neq _ _ Happ).
        -- rewrite (submit_insert_ok _ _ _ _ Hv Hdb Herr) in Happ |- *.
           cbn in Happ. apply app_inv_head in Happ. injection Happ as <-.
           cbn. repeat split. exists r. split; [exact Herr|]. in_list.
      * rewrite (submit_insert_rejected _ _ _ _ Hv Hdb) in Happ.
        destruct (app_snoc_neq _ _ Happ).
    + rewrite submit_invalid in Happ by (rewrite Hv; discriminate).
      destruct (app_snoc_neq _ _ Happ).
  - intros clk s r fd t Hv Herr. subst t.
    destruct (handleSubmit_segments validateLeadForm clk fd Hv)
      as (K & Hstart & _ & _ & Hacc).
    destruct (Hacc r Herr) as (K1 & Hinvoke & Hcommit).
    cbn [Loop.steps].
    rewrite (step_submit_valid validateLeadForm clk s K Hstart).
    match goal with |- context [Loop.step _ _ (Loop.SettleInsert _ _) ?s2] =>
      rewrite (step_settle_insert validateLeadForm clk s2 _ _ _ _ _ _ _ _
                 (list_lookup_middle _ _ _ _ eq_refl) Hinvoke) end.
    cbn [Loop.world Loop.instance Loop.pending Loop.history Loop.park Loop.suspend].
    rewrite delete_middle, app_nil_r. rewrite <- !app_assoc. cbn [app].
    eexists. eexists. split; [reflexivity|].
    cbn [Loop.world Loop.pending Loop.history].
    split; [reflexivity|]. split; [reflexivity|].
    split; [reflexivity|]. split; [reflexivity|].
    intros s2 i f Hi.
    rewrite (step_settle_invoke validateLeadForm clk s2 _ _ _ _ _ f fd Hi
               (fun live w => Hcommit live w f)).
    eexists. split; [reflexivity|].
    cbn [Loop.world Loop.history].
    split; [reflexivity|]. split; reflexivity.
Qed.

Lemma stored_lead_matches_persisted_fields_witness :
  let V := Validation.validateLeadForm in
  let env := Sample.env Sample.accepted Sample.sent in
  let w := Sample.world Sample.ann in
  let l := {| name := "Ann"; email := "a@b.com"; industry := "technology";
              submitted_at := "2025-07-10T13:51:09.250Z" |} in
  let s := {| Loop.world := w; Loop.instance := 1;
              Loop.pending := []; Loop.history := [] |} in
  sessionLeads (store (final (submit V env w))) = sessionLeads (store w) ++ [l] /\
  V (formData w) = [] /\
  submitted_at l = clock env (S (ticks w)) /\
  exists s1 s',
    Loop.steps V Sample.time [Loop.Submit; Loop.SettleInsert 0 Sample.accepted] s =
      Some s1 /\
    ticks (Loop.world s1) = 1 /\
    sessionLeads (store (Loop.world s1)) = [] /\
    Loop.step V Sample.time (Loop.SettleInvoke 0 Sample.sent) s1 = Some s' /\
    sessionLeads (store (Loop.world s')) = [l].
Proof.
  intros V env w l s.
  assert (Happ : sessionLeads (store (final (submit V env w))) =
                 sessionLeads (store w) ++ [l]) by (vm_compute; reflexivity).
  split; [exact Happ|].
  destruct (stored_lead_matches_persisted_fields V) as (_ & Hrun & Hloop).
  destruct (Hrun env w l Happ) as (Hv & Hat & _).
  split; [exact Hv|]. split; [exact Hat|].
  destruct (Hloop Sample.time s
              {| data := Some [insertRow Sample.ann (Sample.time 0)]; error := None |}
              Hv eq_refl)
    as (s1 & h & Hs1 & Hpend & _ & Hticks & Hstore & Hsettle).
  destruct (Hsettle s1 0 Sample.sent) as (s' & Hs' & _ & Hleads & _).
  { rewrite Hpend. reflexivity. }
  exists s1, s'. split; [exact Hs1|]. split; [exact Hticks|].
  split; [rewrite Hstore; reflexivity|]. split; [exact Hs'|].
  rewrite Hleads, Hstore, Hticks. reflexivity.
Defined.

(** ** Exceptions, wherever they are raised *)

(** When no statement throws, the handler is [handleSubmit]. *)
Lemma faults_none_handleSubmit
    (validateLeadForm : gmap string string -> list ValidationError)
    (fd : gmap string string) :
  Faults.handleSubmit validateLeadForm Faults.none fd = handleSubmit validateLeadForm fd.
Proof. reflexivity. Qed.

Ltac fault_cases env faulty :=
  repeat (cbn;
          match goal with
          | |- context [faulty ?n] => destruct (faulty n) eqn:?
          | |- context [db env ?t ?rows] => destruct (db env t rows) as [?|?] eqn:?
          | |- context [fn env ?f ?b] => destruct (fn env f b) as [?|?] eqn:?
          | |- context [error ?r] => destruct (error r) eqn:?
          | |- context [fn_error ?r] => destruct (fn_error r) eqn:?
          end).

(** An exception that leaves the body of the [try] was raised before
    [addLead], unless [setSubmitted] or [setFormData] raised it. *)
Lemma tryBody_exception_no_commit (faulty : nat -> option string) (env : Env)
    (fd : gmap string string) (w : World) (e : string) :
  let body := run env (Faults.tryBody faulty fd) w in
  result body = inr e ->
  faulty 76 = None ->
  faulty 77 = None ->
  store (final body) = store w /\ formData (final body) = formData w.
Proof.
  intros body. subst body. unfold Faults.tryBody, Faults.at_line.
  intros Hres H76 H77. revert Hres. rewrite H76, H77.
  fault_cases env faulty.
  all: try (intros; split; reflexivity).
  all: discriminate.
Qed.

(** The insert call throws: the body of the [try] ends there. *)
Lemma tryBody_insert_throws (faulty : nat -> option string) (env : Env)
    (fd : gmap string string) (w : World) (e : string) :
  faulty 36 = None ->
  db env "leads" [insertRow fd (clock env (ticks w))] = Rejected e ->
  run env (Faults.tryBody faulty fd) w =
    {| result := inr e;
       final := tick w;
       events := [EvInsert "leads" [insertRow fd (clock env (ticks w))];
                  EvInsertSettled "leads" [insertRow fd (clock env (ticks w))]
                    (Rejected e)] |}.
Proof.
  intros H36 Hdb. unfold insertRow in Hdb.
  unfold Faults.tryBody, Faults.at_line. rewrite H36. cbn. rewrite Hdb. reflexivity.
Qed.

(** The statements before the [try], when none of them throws and the form
    is valid, hand over to the [try] statement. *)
Lemma faulty_submit_valid
    (validateLeadForm : gmap string string -> list ValidationError)
    (faulty : nat -> option string) (env : Env) (w : World) :
  faulty 22 = None -> faulty 23 = None -> faulty 24 = None ->
  validateLeadForm (formData w) = [] ->
  run env (Faults.handleSubmit validateLeadForm faulty (formData w)) w =
    emit [EvPreventDefault]
      (run env
         (try_catch (Faults.tryBody faulty (formData w))
            (fun error =>
               Faults.at_line faulty 79
                 (ConsoleError "Unexpected error during form submission:"
                    (ArgExn error))))
         (with_validationErrors [] w)).
Proof.
  intros H22 H23 H24 Hv. unfold Faults.handleSubmit, Faults.at_line.
  rewrite H22, H23, H24. cbn. rewrite Hv. cbn.
  rewrite emit_nil. reflexivity.
Qed.

(** A statement before the [try] throws. *)
Lemma faulty_submit_escapes
    (validateLeadForm : gmap string string -> list ValidationError)
    (faulty : nat -> option string) (env : Env) (w : World) (e : string) :
  faulty 22 = Some e \/
  faulty 22 = None /\ (faulty 23 = Some e \/ faulty 23 = None /\ faulty 24 = Some e) ->
  let o := run env (Faults.handleSubmit validateLeadForm faulty (formData w)) w in
  result o = inr e /\ final o = w /\
  events o = match faulty 22 with Some _ => [] | None => [EvPreventDefault] end.
Proof.
  unfold Faults.handleSubmit, Faults.at_line.
  intros [H22|[H22 [H23|[H23 H24]]]]; rewrite ?H22, ?H23, ?H24; cbn;
    repeat split; reflexivity.
Qed.

(** C7, as stated, fails.  When [validateLeadForm] throws (line 23, before
    the [try] of line 27) the exception leaves [handleSubmit]; when
    [setSubmitted] throws (line 76, after [addLead]) the outer [catch] logs
    it over a store that already holds the new lead. *)
Lemma exceptions_not_contained_anywhere :
  let V := Validation.validateLeadForm in
  let env := Sample.env Sample.accepted Sample.sent in
  let w := Sample.world Sample.ann in
  ~ Faults.contained_anywhere V
      (Faults.only 23 "Error: thrown by validateLeadForm") env w /\
  ~ Faults.contained_anywhere V
      (Faults.only 76 "Error: thrown by setSubmitted") env w.
Proof.
  intros V env w. unfold Faults.contained_anywhere. split.
  - intros [Hres _]. vm_compute in Hres. discriminate.
  - intros [_ Hlogged].
    specialize (Hlogged "Error: thrown by setSubmitted").
    assert (Hstore : store (final (run env
                       (Faults.handleSubmit V
                          (Faults.only 76 "Error: thrown by setSubmitted")
                          (formData w)) w)) = store w).
    { apply Hlogged. apply (list_elem_of_lookup_2 _ 7). vm_compute. reflexivity. }
    vm_compute in Hstore. discriminate.
Qed.

(** C7, amended.  With no statement throwing, the handler is [handleSubmit],
    which no exception leaves.  With statements throwing: once the three
    statements before the [try] have run on a valid form, an exception [e]
    that leaves the body of the [try] (raised anywhere in it and not
    absorbed by the inner [catch]) is caught by the outer [catch]: it is
    written to the console after everything the body did, nothing leaves
    the handler, and, unless it was [setSubmitted] or [setFormData] that
    threw, store and form are as they were before the click.  The insert
    call throwing is such an exception, and no invoke is then issued.  An
    exception of a statement before the [try] leaves the handler, unlogged
    and with nothing changed. *)
Theorem exceptions_in_try_contained
    (validateLeadForm : gmap string string -> list ValidationError)
    (faulty : nat -> option string) (env : Env) (w : World) :
  let fd := formData w in
  let o := run env (Faults.handleSubmit validateLeadForm faulty fd) w in
  let body := run env (Faults.tryBody faulty fd) (with_validationErrors [] w) in
  let unexpected := "Unexpected error during form submission:" in
  (Faults.handleSubmit validateLeadForm Faults.none fd = handleSubmit validateLeadForm fd /\
   contained (handleSubmit validateLeadForm fd) /\
   result (submit validateLeadForm env w) = inl tt) /\
  (faulty 22 = None -> faulty 23 = None -> faulty 24 = None ->
   validateLeadForm fd = [] ->
     (result body = inl tt -> o = emit [EvPreventDefault] body) /\
     (forall e,
        result body = inr e ->
        faulty 79 = None ->
        result o = inl tt /\
        events o = EvPreventDefault :: events body ++
                     [EvConsoleError unexpected (ArgExn e)] /\
        final o = final body /\
        (faulty 76 = None -> faulty 77 = None ->
           store (final o) = store w /\ formData (final o) = formData w)) /\
     (forall e,
        faulty 36 = None ->
        insertAnswer env w = Rejected e ->
        result body = inr e /\
        events body =
          [EvInsert "leads" [insertRow fd (clock env (ticks w))];
           EvInsertSettled "leads" [insertRow fd (clock env (ticks w))] (Rejected e)] /\
        store (final body) = store w /\ formData (final body) = formData w)) /\
  (forall e,
     faulty 22 = Some e \/
     faulty 22 = None /\ (faulty 23 = Some e \/ faulty 23 = None /\ faulty 24 = Some e) ->
     result o = inr e /\ final o = w /\ consoleErrors (events o) = []).
Proof.
  intros fd o body unexpected. subst fd o body unexpected. split; [|split].
  - split; [reflexivity|]. split; [apply handleSubmit_contained|].
    destruct (contained_run env _ w
                (handleSubmit_contained validateLeadForm (formData w))) as [[] Hres].
    exact Hres.
  - intros H22 H23 H24 Hv.
    rewrite (faulty_submit_valid _ _ _ _ H22 H23 H24 Hv), run_try_catch.
    split; [|split].
    + intros Hres. rewrite Hres. reflexivity.
    + intros e Hres H79. rewrite Hres. unfold Faults.at_line. rewrite H79. cbn.
      split; [reflexivity|]. split; [reflexivity|]. split; [reflexivity|].
      intros H76 H77.
      exact (tryBody_exception_no_commit faulty env (formData w)
               (with_validationErrors [] w) e Hres H76 H77).
    + intros e H36 Hdb.
      rewrite (tryBody_insert_throws faulty env (formData w)
                 (with_validationErrors [] w) e H36 Hdb).
      repeat split.
  - intros e He.
    destruct (faulty_submit_escapes validateLeadForm faulty env w e He)
      as (Hres & Hfinal & Hev).
    split; [exact Hres|]. split; [exact Hfinal|].
    rewrite Hev. destruct (faulty 22); reflexivity.
Qed.

Lemma exceptions_in_try_contained_witness :
  let V := Validation.validateLeadForm in
  let faulty := Faults.only 73 "RangeError: Invalid time value" in
  let env := Sample.env Sample.accepted Sample.sent in
  let w := Sample.world Sample.ann in
  let o := run env (Faults.handleSubmit V faulty (formData w)) w in
  V (formData w) = [] /\
  result (run env (Faults.tryBody faulty (formData w)) (with_validationErrors [] w)) =
    inr "RangeError: Invalid time value" /\
  result o = inl tt /\
  last (events o) =
    Some (EvConsoleError "Unexpected error during form submission:"
            (ArgExn "RangeError: Invalid time value")) /\
  store (final o) = initialStore /\
  formData (final o) = Sample.ann.
Proof.
  intros V faulty env w o. subst o.
  assert (Hv : V (formData w) = []) by (vm_compute; reflexivity).
  assert (Hbody : result (run env (Faults.tryBody faulty (formData w))
                            (with_validationErrors [] w)) =
                  inr "RangeError: Invalid time value") by (vm_compute; reflexivity).
  split; [exact Hv|]. split; [exact Hbody|].
  destruct (exceptions_in_try_contained V faulty env w) as (_ & Hin & _).
  destruct (Hin eq_refl eq_refl eq_refl Hv) as (_ & Hcaught & _).
  destruct (Hcaught _ Hbody eq_refl) as (Hres & Hev & _ & Hkept).
  destruct (Hkept eq_refl eq_refl) as (Hstore & Hform).
  split; [exact Hres|]. split.
  - rewrite Hev.
    change (EvPreventDefault :: ?l ++ ?x) with ((EvPreventDefault :: l) ++ x).
    apply last_snoc.
  - split; [exact Hstore | exact Hform].
Defined.
